(** * mini_rack: log follower, offset-tracked collector, alert engine

    A shallow embedding of the three server helpers

      - [server_helpers/simple_alerts.py]   (sliding-window alert engine),
      - [server_helpers/auth_log_monitor.py] and [simple_alerts.py]
        ([follow_file], the rotation-aware line follower),
      - [server_helpers/collector.py]        (remote offset-tracked collector),

    together with the properties of the system description that can be
    stated over them.

    Conventions.  Timestamps ([datetime]) are integers counting
    microseconds, the resolution of Python's [datetime]; a [timedelta] is
    an integer number of microseconds.  Python dictionaries are [gmap]s,
    a [deque] is a list with its left end first, text is [string].
    Wall-clock reads ([datetime.now()]) are an explicit argument. *)

From Stdlib Require Import ZArith Lia Bool Ascii String List Sorted.
From Stdlib.Strings Require Import Byte.
From Stdlib Require DecimalString DecimalN DecimalPos.
From stdpp Require Import base option list strings gmap fin_maps sorting.

Local Open Scope Z_scope.

(** ** The alert engine of [simple_alerts.py] *)

Module Alerts.

(** One parsed input record: the fields [main] reads off the JSON
    object.  [ev_ts] is [parse_ts(evt.get("ts", ""))]: [None] when the
    field is absent or is not an ISO timestamp. *)
Record Event := {
  ev_ts    : option Z;
  ev_event : option string;
  ev_ip    : option string;
  ev_user  : option string;
  ev_cmd   : option string
}.

(** The alert objects appended to the output file. *)
Inductive Alert :=
| ssh_bruteforce_suspected
    (ts : Z) (ip : string) (count : nat) (window_minutes : Z)
    (source_event : Event)
| ssh_success_after_failures
    (ts : Z) (ip : string) (last_fail_ts : Z) (window_minutes : Z)
    (source_event : Event)
| sudo_used
    (ts : Z) (user cmd : option string) (source_event : Event).

(** Command line arguments. *)
Record Args := {
  fail_threshold : Z;
  window_min     : Z;
  alert_sudo     : bool
}.

(** [timedelta(minutes=m)] in microseconds. *)
Definition timedelta_minutes (m : Z) : Z := m * 60000000.

Definition window (args : Args) : Z := timedelta_minutes (window_min args).

(** The two dictionaries of [main]. *)
Record State := {
  fails_by_ip     : gmap string (list Z);
  recent_fail_ips : gmap string Z
}.

Definition initial : State :=
  {| fails_by_ip := ∅; recent_fail_ips := ∅ |}.

(** [ev == name] for the value of [evt.get("event")]. *)
Definition event_is (evt : Event) (name : string) : bool :=
  match ev_event evt with
  | Some e => String.eqb e name
  | None => false
  end.

(** Truth value of [ip]: a missing field and the empty string are
    false. *)
Definition truthy (o : option string) : option string :=
  match o with
  | Some s => if String.eqb s "" then None else Some s
  | None => None
  end.

(** [while dq and dq[0] < cutoff: dq.popleft()] *)
Fixpoint popleft_while (cutoff : Z) (dq : list Z) : list Z :=
  match dq with
  | t :: rest => if t <? cutoff then popleft_while cutoff rest else dq
  | [] => []
  end.

(** The loop at the end of the body: every entry of [recent_fail_ips]
    with [rts < cutoff] is deleted. *)
Definition expire (cutoff : Z) (recent : gmap string Z) : gmap string Z :=
  filter (λ kv : string * Z, cutoff ≤ kv.2) recent.

(** The [ssh_failed] branch. *)
Definition on_failed (args : Args) (now ts : Z) (st : State)
    (evt : Event) (ip : string) : State * list Alert :=
  let cutoff := ts - window args in
  let dq := popleft_while cutoff (default [] (fails_by_ip st !! ip) ++ [ts]) in
  ({| fails_by_ip := <[ip := dq]> (fails_by_ip st);
      recent_fail_ips := <[ip := ts]> (recent_fail_ips st) |},
   if Z.of_nat (length dq) =? fail_threshold args
   then [ssh_bruteforce_suspected now ip (length dq) (window_min args) evt]
   else []).

(** The [ssh_accepted] branch. *)
Definition on_accepted (args : Args) (now ts : Z) (st : State)
    (evt : Event) (ip : string) : State * list Alert :=
  (st,
   match recent_fail_ips st !! ip with
   | Some last_fail =>
       if ts - last_fail <=? window args
       then [ssh_success_after_failures now ip last_fail (window_min args) evt]
       else []
   | None => []
   end).

(** The [if / elif / elif] chain of the loop body, before the expiry
    loop. *)
Definition dispatch (args : Args) (now ts : Z) (st : State)
    (evt : Event) : State * list Alert :=
  match (if event_is evt "ssh_failed" then truthy (ev_ip evt) else None) with
  | Some ip => on_failed args now ts st evt ip
  | None =>
      match (if event_is evt "ssh_accepted" then truthy (ev_ip evt) else None) with
      | Some ip => on_accepted args now ts st evt ip
      | None =>
          if event_is evt "sudo" && alert_sudo args
          then (st, [sudo_used now (ev_user evt) (ev_cmd evt) evt])
          else (st, [])
      end
  end.

(** One iteration of the [for line in follow_file(...)] loop on a line
    that parsed as JSON.  [now] is the value of [now_dt()]. *)
Definition step (args : Args) (now : Z) (st : State) (evt : Event)
    : State * list Alert :=
  let ts := default now (ev_ts evt) in
  let cutoff := ts - window args in
  let '(st1, alerts) := dispatch args now ts st evt in
  ({| fails_by_ip := fails_by_ip st1;
      recent_fail_ips := expire cutoff (recent_fail_ips st1) |},
   alerts).

(** The loop over a finite prefix of the input; the wall clock is
    held at [now] (it only labels alerts and stands in for a
    timestamp that did not parse). *)
Fixpoint run (args : Args) (now : Z) (st : State) (evts : list Event)
    : State * list Alert :=
  match evts with
  | [] => (st, [])
  | evt :: rest =>
      let '(st1, a1) := step args now st evt in
      let '(st2, a2) := run args now st1 rest in
      (st2, a1 ++ a2)
  end.

(** A record as [auth_log_monitor.py] writes it for a failed login. *)
Definition failed (ip : string) (ts : Z) : Event :=
  {| ev_ts := Some ts; ev_event := Some "ssh_failed"%string;
     ev_ip := Some ip; ev_user := None; ev_cmd := None |}.

Definition accepted (ip : string) (ts : Z) : Event :=
  {| ev_ts := Some ts; ev_event := Some "ssh_accepted"%string;
     ev_ip := Some ip; ev_user := None; ev_cmd := None |}.

(** The IP under which an input record counts as a failed login: the
    test of the first branch of the loop body. *)
Definition failure_ip (evt : Event) : option string :=
  if event_is evt "ssh_failed" then truthy (ev_ip evt) else None.

(** The time basis of an iteration: the record's own timestamp, or the
    wall clock when it has none that parses. *)
Definition event_time (now : Z) (evt : Event) : Z := default now (ev_ts evt).

(** The timestamps of the failed logins of [ip] in a stream, in the
    order of arrival. *)
Definition failure_times (now : Z) (ip : string) (evts : list Event) : list Z :=
  omap (λ evt, if decide (failure_ip evt = Some ip)
               then Some (event_time now evt) else None) evts.

(** One line as the loop of [main] meets it. *)
Inductive Line :=
| Blank                 (* empty once stripped: [if not line: continue] *)
| NotJSON               (* [json.loads] raises: [continue] *)
| NotObject             (* JSON, but no object: [evt.get] raises [AttributeError] *)
| Object (evt : Event).

(** [for line in follow_file(...)] on a finite prefix of the lines: the
    state, the alerts written, and whether the loop was ended by the
    exception that nothing in [main] catches. *)
Fixpoint main_loop (args : Args) (now : Z) (st : State) (lines : list Line)
    : State * list Alert * bool :=
  match lines with
  | [] => (st, [], false)
  | Blank :: rest => main_loop args now st rest
  | NotJSON :: rest => main_loop args now st rest
  | NotObject :: _ => (st, [], true)
  | Object evt :: rest =>
      let '(st1, a1) := step args now st evt in
      let '(st2, a2, crashed) := main_loop args now st1 rest in
      (st2, a1 ++ a2, crashed)
  end.



End Alerts.


(** ** Python string helpers used by the three scripts

    Text is a [string] whose characters are code points below 256. *)

Module Py.

Local Open Scope N_scope.

(** The line feed character. *)
Definition LF : ascii := ascii_of_N 10.

Definition nl : string := String LF EmptyString.

Definition is_LF (c : ascii) : bool := N_of_ascii c =? 10.

(** [str.isspace] on one character (code points below 256). *)
Definition isspace (c : ascii) : bool :=
  let n := N_of_ascii c in
  ((9 <=? n) && (n <=? 13)) || ((28 <=? n) && (n <=? 32))
  || (n =? 133) || (n =? 160).

Definition is_empty (s : string) : bool :=
  match s with EmptyString => true | String _ _ => false end.

(** [s.rstrip("\n")] *)
Fixpoint rstrip_nl (s : string) : string :=
  match s with
  | EmptyString => EmptyString
  | String c r =>
      let r' := rstrip_nl r in
      if is_LF c && is_empty r' then EmptyString else String c r'
  end.

Fixpoint lstrip (s : string) : string :=
  match s with
  | EmptyString => EmptyString
  | String c r => if isspace c then lstrip r else s
  end.

Fixpoint rstrip (s : string) : string :=
  match s with
  | EmptyString => EmptyString
  | String c r =>
      let r' := rstrip r in
      if isspace c && is_empty r' then EmptyString else String c r'
  end.

(** [s.strip()] *)
Definition strip (s : string) : string := rstrip (lstrip s).

(** The characters ['0'] to ['9']. *)
Definition is_ascii_digit (c : ascii) : bool :=
  let n := N_of_ascii c in (48 <=? n) && (n <=? 57).

(** [str.isdigit] on one character: below 256 these are the ASCII
    digits and the superscripts two, three and one. *)
Definition isdigit_char (c : ascii) : bool :=
  let n := N_of_ascii c in
  is_ascii_digit c || (n =? 178) || (n =? 179) || (n =? 185).

Fixpoint all_chars (p : ascii -> bool) (s : string) : bool :=
  match s with
  | EmptyString => true
  | String c r => p c && all_chars p r
  end.

(** No line feed occurs in the text. *)
Definition no_LF (s : string) : bool :=
  all_chars (fun c => negb (is_LF c)) s.

(** [s.isdigit()]: at least one character, and all of them digits. *)
Definition isdigit (s : string) : bool :=
  negb (is_empty s) && all_chars isdigit_char s.

Fixpoint int_digits (acc : N) (s : string) : N :=
  match s with
  | EmptyString => acc
  | String c r => int_digits (10 * acc + (N_of_ascii c - 48)) r
  end.

(** [int(s)] for a string that passed [isdigit]: the decimal value, or
    [None] for [ValueError] (a superscript digit is a digit for
    [isdigit] and no decimal digit for [int]).  The bound that recent
    interpreters put on the number of digits is left out. *)
Definition int (s : string) : option Z :=
  if all_chars is_ascii_digit s then Some (Z.of_N (int_digits 0 s)) else None.

(** [s.encode("utf-8")] on code points below 256: one byte below 128,
    two bytes from 128 on. *)
Definition encode_char (c : ascii) : list Byte.byte :=
  let n := N_of_ascii c in
  if n <? 128 then [byte_of_ascii c]
  else [byte_of_ascii (ascii_of_N (192 + n / 64));
        byte_of_ascii (ascii_of_N (128 + n mod 64))].

Fixpoint encode (s : string) : list Byte.byte :=
  match s with
  | EmptyString => []
  | String c r => encode_char c ++ encode r
  end.

(** [str(n)] and the formatting of an integer in an f-string: decimal
    digits, a minus sign for a negative number. *)
Definition str (z : Z) : string :=
  DecimalString.NilZero.string_of_int (Z.to_int z).

End Py.


(** ** [follow_file]: the rotation-aware line follower

    [auth_log_monitor.py] and [simple_alerts.py] carry the same
    generator; they differ in what they do to a line before yielding it
    ([rstrip("\n")] and [strip()]).  The file is read as text; a read
    position counts characters. *)

Module Follower.

(** The part of the file system the generator sees: the inode the path
    names now ([None]: no such file) and the text of every file by
    inode, which an open handle keeps reading after the path was
    renamed or unlinked. *)
Record Fs := {
  path_ino : option N;
  contents : gmap N string
}.

Definition content (fs : Fs) (i : N) : string := default EmptyString (contents fs !! i).

(** An open file object: the file it reads and its read position. *)
Record Handle := {
  h_ino : N;
  h_pos : nat
}.

(** The local variables [f] and [current_inode]. *)
Record State := {
  f : option Handle;
  current_inode : option N
}.

(** The text from position [n] on. *)
Fixpoint skip (n : nat) (s : string) : string :=
  match n, s with
  | O, _ => s
  | S n', String _ r => skip n' r
  | S _, EmptyString => EmptyString
  end.

(** [f.readline()] on the unread text: everything up to and including
    the first line feed, or all of it when there is none. *)
Fixpoint readline (s : string) : string :=
  match s with
  | EmptyString => EmptyString
  | String c r => if Py.is_LF c then String c EmptyString else String c (readline r)
  end.

(** [inode(path)] *)
Definition inode (fs : Fs) : option N := path_ino fs.

(** [open(path)] followed by [f.seek(0, os.SEEK_END)]; [None] is
    [FileNotFoundError]. *)
Definition open_at_end (fs : Fs) : option Handle :=
  match path_ino fs with
  | Some i => Some {| h_ino := i; h_pos := String.length (content fs i) |}
  | None => None
  end.

(** The rotation test of the [else] branch. *)
Definition rotated (new_inode cur : option N) : bool :=
  match new_inode, cur with
  | Some a, Some b => negb (N.eqb a b)
  | _, _ => false
  end.

Section Generator.

(** What is done to a line before it is yielded. *)
Variable post : string -> string.

(** One iteration of [while True]: the state after it and the value
    yielded in it, if any. *)
Definition poll (fs : Fs) (st : State) : State * option string :=
  let opened :=
    match f st with
    | Some h => Some (h, current_inode st)
    | None =>
        match open_at_end fs with
        | Some h => Some (h, inode fs)
        | None => None
        end
    end in
  match opened with
  | None => (st, None)
  | Some (h, cur) =>
      let line := readline (skip (h_pos h) (content fs (h_ino h))) in
      if Py.is_empty line then
        if rotated (inode fs) cur
        then ({| f := None; current_inode := cur |}, None)
        else ({| f := Some h; current_inode := cur |}, None)
      else
        ({| f := Some {| h_ino := h_ino h;
                         h_pos := (h_pos h + String.length line)%nat |};
            current_inode := cur |},
         Some (post line))
  end.

End Generator.

(** What happens around the generator. *)
Inductive Action :=
| Append (s : string)   (* a writer appends [s] to the file at the path *)
| Rotate (i : N)        (* the path now names a new, empty file [i] *)
| Unlink                (* the path names nothing *)
| Poll.                 (* the generator runs one iteration *)

Definition append_to (fs : Fs) (s : string) : Fs :=
  match path_ino fs with
  | Some i => {| path_ino := Some i;
                 contents := <[i := (content fs i ++ s)%string]> (contents fs) |}
  | None => fs
  end.

Definition act (post : string -> string) (a : Action) (w : Fs * State)
    : (Fs * State) * list string :=
  let '(fs, st) := w in
  match a with
  | Append s => ((append_to fs s, st), [])
  | Rotate i =>
      (({| path_ino := Some i; contents := <[i := EmptyString]> (contents fs) |}, st), [])
  | Unlink => (({| path_ino := None; contents := contents fs |}, st), [])
  | Poll =>
      let '(st', y) := poll post fs st in
      ((fs, st'), match y with Some l => [l] | None => [] end)
  end.

(** A schedule of writer actions and generator iterations, and the
    lines yielded along it. *)
Fixpoint play (post : string -> string) (sched : list Action) (w : Fs * State)
    : (Fs * State) * list string :=
  match sched with
  | [] => (w, [])
  | a :: rest =>
      let '(w1, out1) := act post a w in
      let '(w2, out2) := play post rest w1 in
      (w2, out1 ++ out2)
  end.

(** The generator when it is created: [current_inode = inode(path)],
    [f = None]. *)
Definition start (fs : Fs) : State :=
  {| f := None; current_inode := inode fs |}.

(** [auth_log_monitor.follow_file] yields [line.rstrip("\n")]: what it
    yields along a schedule, started on the file system [fs]. *)
Definition auth_log_monitor_follow_file (sched : list Action) (fs : Fs)
    : (Fs * State) * list string :=
  play Py.rstrip_nl sched (fs, start fs).

(** [simple_alerts.follow_file] yields [line.strip()]. *)
Definition simple_alerts_follow_file (sched : list Action) (fs : Fs)
    : (Fs * State) * list string :=
  play Py.strip sched (fs, start fs).


End Follower.


(** ** [collector.py]: the remote offset-tracked collector *)

Module Collector.

Record Source := {
  name : string;
  host : string;
  user : string;
  remote_path : string;
  port : Z
}.

(** The exceptions that occur in the modelled code. *)
Inductive Exn :=
| TimeoutExpired      (* [subprocess.run] ran out of its [timeout] *)
| ValueError          (* [int] on a string that is no decimal number *)
| FileNotFoundError
| JSONDecodeError
| SystemExit.

(** A computation that returns or raises. *)
Inductive Result (A : Type) :=
| Ok (a : A)
| Raise (e : Exn).

Arguments Ok {A} a.
Arguments Raise {A} e.

Definition bind {A B : Type} (r : Result A) (k : A -> Result B) : Result B :=
  match r with
  | Ok a => k a
  | Raise e => Raise e
  end.

Notation "'do' x <- r ; k" := (bind r (fun x => k))
  (at level 10, x name, r at level 100, k at level 200).

(** The fields of [subprocess.CompletedProcess] that are read. *)
Record CompletedProcess := {
  returncode : Z;
  stdout : string
}.

(** What [run] gives for the two commands issued for one source in one
    cycle: the size query [stat -c %s <path> 2>/dev/null], and the
    range read [tail -c +<start> <path> 2>/dev/null || true] as a
    function of [start].  [stdout] is the text [subprocess.run] hands
    over with [text=True]; [Raise TimeoutExpired] is [subprocess.run]
    giving up after its [timeout].  The two commands run one after the
    other, so the remote file may differ between them. *)
Record Replies := {
  on_stat : Result CompletedProcess;
  on_tail : Z -> Result CompletedProcess
}.

(** [remote_stat_size]: [Ok None] is the Python [None]. *)
Definition remote_stat_size (reply : Result CompletedProcess) : Result (option Z) :=
  do p <- reply;
  if negb (returncode p =? 0) then Ok None
  else
    let out := Py.strip (stdout p) in
    if negb (Py.isdigit out) then Ok None
    else match Py.int out with
         | Some n => Ok (Some n)
         | None => Raise ValueError
         end.

(** [sftp_read_range]: [Ok None] is [False]; [Ok (Some tmp)] is [True]
    with [tmp] the bytes written to [local_tmp]. *)
Definition sftp_read_range (replies : Replies) (offset : Z)
    : Result (option (list Byte.byte)) :=
  let start := offset + 1 in
  do p <- on_tail replies start;
  if negb (returncode p =? 0) then Ok None
  else Ok (Some (Py.encode (stdout p))).

(** The read size of [append_file]. *)
Definition CHUNK : nat := 1024 * 256.

(** The copy loop of [append_file]; [fuel] bounds the number of
    iterations. *)
Fixpoint append_loop (fuel n : nat) (src dst : list Byte.byte) (appended : nat)
    : list Byte.byte * nat :=
  match fuel with
  | O => (dst, appended)
  | S k =>
      match take n src with
      | [] => (dst, appended)
      | chunk => append_loop k n (drop n src) (dst ++ chunk)
                   (appended + length chunk)%nat
      end
  end.

(** [append_file(dst_path, src_path)]: the new content of the
    destination and the number of bytes appended.  Every iteration
    but the last reads at least one byte, so [length src + 1]
    iterations are enough. *)
Definition append_file (dst src : list Byte.byte) : list Byte.byte * nat :=
  append_loop (S (length src)) CHUNK src dst 0%nat.

(** The records written to [collector_status.jsonl] (without the
    wall-clock [ts]). *)
Inductive Status :=
| unreachable_or_missing (source host detail : string)
| no_change (source host : string) (bytes_remote : Z)
| fetch_failed (source host : string) (bytes_remote offset : Z)
| ok (source host : string) (bytes_appended : nat) (new_offset : Z)
     (remote_path : string).

(** [collector_offsets.json] on disk: absent, present with a content
    that [json.load] rejects, or the dictionary [save_json] wrote. *)
Inductive OffsetsFile :=
| Missing
| Garbled
| Stored (m : gmap string Z).

(** The collector's own state: the dictionary [offsets], the file it
    is saved to, the mirror file of every source (by source name, as
    the file name [<name>.jsonl] derives from it) and the status log
    (taken to be a file of its own: no source is named
    [collector_status]). *)
Record Local := {
  offsets : gmap string Z;
  offsets_file : OffsetsFile;
  mirrors : gmap string (list Byte.byte);
  status_log : list Status
}.

Definition mirror (st : Local) (key : string) : list Byte.byte :=
  default [] (mirrors st !! key).

(** [int(offsets.get(key, 0))] *)
Definition stored_offset (st : Local) (key : string) : Z :=
  default 0 (offsets st !! key).

(** [log_status] *)
Definition log_status (st : Local) (rec : Status) : Local :=
  {| offsets := offsets st; offsets_file := offsets_file st;
     mirrors := mirrors st; status_log := status_log st ++ [rec] |}.

Definition exists_file (file : OffsetsFile) : bool :=
  match file with
  | Missing => false
  | _ => true
  end.

(** [load_json(offsets_path)] *)
Definition load_json (file : OffsetsFile) : Result (gmap string Z) :=
  match file with
  | Missing => Raise FileNotFoundError
  | Garbled => Raise JSONDecodeError
  | Stored m => Ok m
  end.

(** The start of [main]: [offsets = {}], replaced by the loaded
    dictionary when the file exists and loads. *)
Definition load_offsets (file : OffsetsFile) : gmap string Z :=
  if exists_file file then
    match load_json file with
    | Ok m => m
    | Raise _ => ∅
    end
  else ∅.

(** The body of [for src in sources]. *)
Definition collect_source (src : Source) (replies : Replies) (st : Local)
    : Result Local :=
  let key := name src in
  let old_offset := stored_offset st key in
  do size <- remote_stat_size (on_stat replies);
  match size with
  | None =>
      Ok (log_status st
            (unreachable_or_missing (name src) (host src)
               ("Could not stat " ++ remote_path src)))
  | Some size =>
      let old_offset := if size <? old_offset then 0 else old_offset in
      if size =? old_offset then
        Ok (log_status st (no_change (name src) (host src) size))
      else
        do fetched <- sftp_read_range replies old_offset;
        match fetched with
        | None =>
            Ok (log_status st (fetch_failed (name src) (host src) size old_offset))
        | Some tmp =>
            let '(out, bytes_appended) := append_file (mirror st key) tmp in
            let offsets' := <[key := size]> (offsets st) in
            Ok {| offsets := offsets';
                  offsets_file := Stored offsets';
                  mirrors := <[key := out]> (mirrors st);
                  status_log := status_log st ++
                    [ok (name src) (host src) bytes_appended size (remote_path src)] |}
        end
  end.

(** One pass of [for src in sources]; [remote] gives what the remote
    side answers for each source during this pass. *)
Fixpoint cycle (remote : Source -> Replies) (sources : list Source) (st : Local)
    : Result Local :=
  match sources with
  | [] => Ok st
  | src :: rest =>
      do st' <- collect_source src (remote src) st;
      cycle remote rest st'
  end.

(** [while True]: one [cycle] per element of [remotes] (a finite
    prefix of the run), a single one with [--once]. *)
Fixpoint main_loop (once : bool) (sources : list Source)
    (remotes : list (Source -> Replies)) (st : Local) : Result Local :=
  match remotes with
  | [] => Ok st
  | remote :: rest =>
      do st' <- cycle remote sources st;
      if once then Ok st' else main_loop once sources rest st'
  end.

(** [main] for an output directory that holds [file], the mirror files
    [mirrors0] and the status log [log0]. *)
Definition main (file : OffsetsFile) (mirrors0 : gmap string (list Byte.byte))
    (log0 : list Status) (once : bool) (sources : list Source)
    (remotes : list (Source -> Replies)) : Result Local :=
  let offsets0 := load_offsets file in
  match sources with
  | [] => Raise SystemExit
  | _ =>
      main_loop once sources remotes
        {| offsets := offsets0; offsets_file := file;
           mirrors := mirrors0; status_log := log0 |}
  end.

(** The source of the example configuration in the module docstring. *)
Definition smart_house_pi3 : Source :=
  {| name := "smart_house_pi3"; host := "192.168.1.50"; user := "pi";
     remote_path := "/var/log/iot_auth_events.jsonl"; port := 22 |}.

(** A collector that has nothing on disk yet. *)
Definition fresh : Local :=
  {| offsets := ∅; offsets_file := Missing; mirrors := ∅; status_log := [] |}.

(** [run] returned with this exit status and output. *)
Definition completed (rc : Z) (out : string) : Result CompletedProcess :=
  Ok {| returncode := rc; stdout := out |}.

(** The single quote and the double quote character. *)
Definition squote : ascii := ascii_of_N 39.
Definition dquote : ascii := ascii_of_N 34.

(** The [replace] call of [sh_quote]: every single quote becomes the
    five characters single quote, double quote, single quote, double
    quote, single quote. *)
Fixpoint replace_squote (s : string) : string :=
  match s with
  | EmptyString => EmptyString
  | String c r =>
      if Ascii.eqb c squote
      then String squote (String dquote (String squote (String dquote
             (String squote (replace_squote r)))))
      else String c (replace_squote r)
  end.

(** [sh_quote] *)
Definition sh_quote (s : string) : string :=
  String squote (replace_squote s ++ String squote EmptyString).


(** [sftp_base_args] (defined in the script, called nowhere) *)
Definition sftp_base_args (src : Source) : list string :=
  ["sftp"; "-P"; Py.str (port src); "-o"; "BatchMode=yes"; "-o";
   "ConnectTimeout=8"; user src ++ "@" ++ host src]%string.



End Collector.


(** ** Quoting in the POSIX shell

    The reference against which [sh_quote] is checked: how the shell
    reads a text that is made of quoted pieces only.  Between single
    quotes every character stands for itself; between double quotes
    every character does, except the dollar sign, the backquote and the
    backslash, which are not read here; outside quotes only the start
    of a quoted piece is read. *)

Module Shell.

Inductive Mode := Bare | Single | Double.

Definition special_in_double (c : ascii) : bool :=
  let n := N_of_ascii c in ((n =? 36) || (n =? 96) || (n =? 92))%N.

Fixpoint unquote_from (m : Mode) (s : string) : option string :=
  match s with
  | EmptyString => match m with Bare => Some EmptyString | _ => None end
  | String c r =>
      match m with
      | Bare =>
          if Ascii.eqb c Collector.squote then unquote_from Single r
          else if Ascii.eqb c Collector.dquote then unquote_from Double r
          else None
      | Single =>
          if Ascii.eqb c Collector.squote then unquote_from Bare r
          else String c <$> unquote_from Single r
      | Double =>
          if Ascii.eqb c Collector.dquote then unquote_from Bare r
          else if special_in_double c then None
          else String c <$> unquote_from Double r
      end
  end.

(** The word a text of quoted pieces stands for; [None] when the text
    is empty, leaves a quote open or holds something that is not read
    here. *)
Definition unquote (s : string) : option string :=
  match s with
  | EmptyString => None
  | _ => unquote_from Bare s
  end.

End Shell.


(** * Properties *)

(** ** The alert engine *)

Section AlertFacts.

Import Alerts.

(** Popping from the left leaves a suffix. *)
Lemma popleft_while_suffix (cutoff : Z) (dq : list Z) :
  popleft_while cutoff dq `suffix_of` dq.
Proof.
  induction dq as [|t rest IH]; simpl; [done|].
  destruct (t <? cutoff); [by apply suffix_cons_r | done].
Qed.





Lemma run_cons (args : Args) (now : Z) (st : State) (evt : Event) (rest : list Event) :
  run args now st (evt :: rest) =
    (let '(st1, a1) := step args now st evt in
     let '(st2, a2) := run args now st1 rest in (st2, a1 ++ a2)).
Proof. reflexivity. Qed.

End AlertFacts.

Section BruteForce.

Import Alerts.




End BruteForce.

Section Correlation.

Import Alerts.

(** After the iteration, no entry of [recent_fail_ips] is older than
    the cutoff of that iteration. *)
Lemma recent_fail_ips_fresh (args : Args) (now : Z) (st : State) (evt : Event)
    (ip : string) (rts : Z) :
  recent_fail_ips (step args now st evt).1 !! ip = Some rts →
  default now (ev_ts evt) - window args ≤ rts.
Proof.
  unfold step. destruct (dispatch _ _ _ _ _) as [st1 alerts]. simpl.
  unfold expire. intros H. apply map_lookup_filter_Some in H. apply H.
Qed.

(** No iteration removes a key from [fails_by_ip]. *)
Lemma fails_by_ip_keys_stay (args : Args) (now : Z) (st : State) (evt : Event) :
  dom (fails_by_ip st) ⊆ dom (fails_by_ip (step args now st evt).1).
Proof.
  unfold step, dispatch, on_failed, on_accepted.
  repeat (case_match; simplify_eq/=); try done.
  all: rewrite dom_insert_L; set_solver.
Qed.




(** C6.  The record of an IP in [fails_by_ip] is never evicted: after a
    failure of 10.0.0.5 at time 0 and one of 10.0.0.9 an hour later,
    the deque of 10.0.0.5 is still held although its only entry is
    older than the cutoff, while the entry of 10.0.0.5 in
    [recent_fail_ips] has been deleted. *)
Theorem stale_failure_record_is_kept :
  let args := {| fail_threshold := 3; window_min := 5; alert_sudo := false |} in
  let st := (run args 0 initial
               [failed "10.0.0.5" 0; failed "10.0.0.9" 3600000000]).1 in
  let cutoff := 3600000000 - window args in
  fails_by_ip st !! "10.0.0.5"%string = Some [0]
  ∧ 0 < cutoff
  ∧ recent_fail_ips st !! "10.0.0.5"%string = None
  ∧ recent_fail_ips st !! "10.0.0.9"%string = Some 3600000000.
Proof. vm_compute. repeat split; reflexivity. Qed.

End Correlation.

(** ** The line follower *)

Section FollowerFacts.

Import Follower.

Local Open Scope string_scope.

Lemma skip_length (s : string) : skip (String.length s) s = EmptyString.
Proof. induction s as [|c r IH]; simpl; [done | exact IH]. Qed.





(** [rstrip("\n")] takes the line feed off a complete line. *)
Lemma rstrip_nl_line (l : string) : Py.no_LF l = true → Py.rstrip_nl (l ++ Py.nl) = l.
Proof.
  induction l as [|c r IH]; simpl; [done|].
  intros H. apply andb_true_iff in H as [Hc Hr].
  apply negb_true_iff in Hc. rewrite Hc. simpl. by rewrite IH.
Qed.

(** [rstrip("\n")] leaves text without line feed as it is. *)
Lemma rstrip_nl_partial (s : string) : Py.no_LF s = true → Py.rstrip_nl s = s.
Proof.
  induction s as [|c r IH]; simpl; [done|].
  intros H. apply andb_true_iff in H as [Hc Hr].
  apply negb_true_iff in Hc. rewrite Hc. simpl. by rewrite IH.
Qed.

(** Opening the file places the handle behind everything the file
    holds at that moment: nothing of it is read, in this iteration or
    later. *)
Lemma open_skips_existing (post : string → string) (fs : Fs) (cur : option N) (i : N) :
  path_ino fs = Some i →
  poll post fs {| f := None; current_inode := cur |} =
    ({| f := Some {| h_ino := i; h_pos := String.length (content fs i) |};
        current_inode := Some i |}, None).
Proof.
  intros Hp. unfold poll, open_at_end, inode. simpl. rewrite Hp. simpl.
  rewrite skip_length. simpl. unfold rotated. by rewrite N.eqb_refl.
Qed.

(** While the path names nothing the generator waits: no handle is
    opened and nothing is yielded. *)
Lemma poll_waits_for_file (post : string → string) (fs : Fs) (cur : option N) :
  path_ino fs = None →
  poll post fs {| f := None; current_inode := cur |} =
    ({| f := None; current_inode := cur |}, None).
Proof. intros Hp. unfold poll, open_at_end. simpl. by rewrite Hp. Qed.

(** At the end of the old file, a path that names another inode makes
    the generator drop its handle; the next iteration opens the new
    file. *)
Lemma poll_detects_rotation (post : string → string) (fs : Fs) (h : Handle) (old new : N) :
  skip (h_pos h) (content fs (h_ino h)) = EmptyString →
  path_ino fs = Some new → new ≠ old →
  poll post fs {| f := Some h; current_inode := Some old |} =
    ({| f := None; current_inode := Some old |}, None).
Proof.
  intros Hend Hp Hne. unfold poll, inode. simpl. rewrite Hend, Hp. simpl.
  apply N.eqb_neq in Hne. by rewrite Hne.
Qed.




(** C1.  Three rotations under the follower of [auth_log_monitor.py]
    (and of [simple_alerts.py]).  After each rotation one line is
    written to the new file before the follower's next iteration and one
    line after the follower has reopened the file.  The reopened handle
    is positioned at the end of the new file, so the first line of every
    new file is never yielded. *)
Theorem lines_written_before_reopen_are_lost :
  let line (s : string) := s ++ Py.nl in
  let fs0 := {| path_ino := Some 1%N; contents := {[ 1%N := line "boot" ]} |} in
  let rotation (i : N) (first second : string) :=
    [Rotate i; Append (line first); Poll; Poll; Append (line second); Poll] in
  let sched :=
    ([Poll; Append (line "a1"); Poll]
     ++ rotation 2%N "b1" "b2" ++ rotation 3%N "c1" "c2"
     ++ rotation 4%N "d1" "d2")%list in
  (auth_log_monitor_follow_file sched fs0).2 = ["a1"; "b2"; "c2"; "d2"]
  ∧ (simple_alerts_follow_file sched fs0).2 = ["a1"; "b2"; "c2"; "d2"]
  ∧ content (auth_log_monitor_follow_file sched fs0).1.1 4%N
    = line "d1" ++ line "d2".
Proof. vm_compute. repeat split; reflexivity. Qed.

End FollowerFacts.

(** ** The collector *)

Section CollectorFacts.

Import Collector.

(** The copy loop appends the whole source, whatever the read size. *)
Lemma append_loop_all (fuel n : nat) (src dst : list Byte.byte) (appended : nat) :
  (0 < n)%nat → (length src < fuel)%nat →
  append_loop fuel n src dst appended = (dst ++ src, (appended + length src)%nat).
Proof.
  intros Hn. revert src dst appended.
  induction fuel as [|k IH]; intros src dst appended Hlen; [lia|].
  simpl. destruct (take n src) as [|b chunk] eqn:Htake.
  - destruct src as [|b src]; [|destruct n; [lia | discriminate]].
    by rewrite app_nil_r, Nat.add_0_r.
  - rewrite IH.
    + rewrite <- Htake, <- app_assoc, take_drop. f_equal.
      pose proof (f_equal length (take_drop n src)) as Hsplit.
      rewrite length_app, Htake in Hsplit. simpl in Hsplit. lia.
    + assert (Hpos : (0 < length (take n src))%nat) by (rewrite Htake; simpl; lia).
      rewrite length_take in Hpos. rewrite length_drop. lia.
Qed.

Lemma CHUNK_positive : (0 < CHUNK)%nat.
Proof. unfold CHUNK. apply Nat.mul_pos_pos; lia. Qed.

(** [append_file] appends the source verbatim and returns its length. *)
Lemma append_file_all (dst src : list Byte.byte) :
  append_file dst src = (dst ++ src, length src).
Proof.
  unfold append_file. rewrite append_loop_all; [done | apply CHUNK_positive | lia].
Qed.

(** The four outcomes of the loop body. *)
Lemma collect_source_unreachable (src : Source) (replies : Replies) (st : Local) :
  remote_stat_size (on_stat replies) = Ok None →
  collect_source src replies st =
    Ok (log_status st
          (unreachable_or_missing (name src) (host src)
             ("Could not stat " ++ remote_path src))).
Proof. intros Hs. unfold collect_source. rewrite Hs. reflexivity. Qed.

Lemma collect_source_no_change (src : Source) (replies : Replies) (st : Local) (S : Z) :
  remote_stat_size (on_stat replies) = Ok (Some S) →
  let O := stored_offset st (name src) in
  S = (if S <? O then 0 else O) →
  collect_source src replies st =
    Ok (log_status st (no_change (name src) (host src) S)).
Proof.
  intros Hs O Heq. unfold collect_source. rewrite Hs. simpl. fold O.
  apply Z.eqb_eq in Heq. by rewrite Heq.
Qed.

Lemma collect_source_fetch_failed
    (src : Source) (replies : Replies) (st : Local) (S : Z) (p : CompletedProcess) :
  remote_stat_size (on_stat replies) = Ok (Some S) →
  let O := stored_offset st (name src) in
  let from := if S <? O then 0 else O in
  S ≠ from → on_tail replies (from + 1) = Ok p → returncode p ≠ 0 →
  collect_source src replies st =
    Ok (log_status st (fetch_failed (name src) (host src) S from)).
Proof.
  intros Hs O from Hne Ht Hrc. unfold collect_source, sftp_read_range.
  rewrite Hs. simpl. fold O. fold from.
  apply Z.eqb_neq in Hne. rewrite Hne, Ht. simpl.
  apply Z.eqb_neq in Hrc. by rewrite Hrc.
Qed.

Lemma collect_source_fetched
    (src : Source) (replies : Replies) (st : Local) (S : Z) (p : CompletedProcess) :
  remote_stat_size (on_stat replies) = Ok (Some S) →
  let O := stored_offset st (name src) in
  let from := if S <? O then 0 else O in
  S ≠ from → on_tail replies (from + 1) = Ok p → returncode p = 0 →
  let data := Py.encode (stdout p) in
  collect_source src replies st =
    Ok {| offsets := <[name src := S]> (offsets st);
          offsets_file := Stored (<[name src := S]> (offsets st));
          mirrors := <[name src := mirror st (name src) ++ data]> (mirrors st);
          status_log := status_log st ++
            [ok (name src) (host src) (length data) S (remote_path src)] |}.
Proof.
  intros Hs O from Hne Ht Hrc data. unfold collect_source, sftp_read_range.
  rewrite Hs. simpl. fold O. fold from.
  apply Z.eqb_neq in Hne. rewrite Hne, Ht. simpl.
  rewrite Hrc. simpl. by rewrite append_file_all.
Qed.

Lemma mirror_after_insert (st : Local) (key : string) (m : gmap string (list Byte.byte))
    (out : list Byte.byte) (o : gmap string Z) (file : OffsetsFile) (log : list Status) :
  mirror {| offsets := o; offsets_file := file;
            mirrors := <[key := out]> m; status_log := log |} key = out.
Proof. unfold mirror. simpl. by rewrite lookup_insert_eq. Qed.

Lemma stored_offset_after_insert (key : string) (S : Z) (o : gmap string Z)
    (file : OffsetsFile) (m : gmap string (list Byte.byte)) (log : list Status) :
  stored_offset {| offsets := <[key := S]> o; offsets_file := file;
                   mirrors := m; status_log := log |} key = S.
Proof. unfold stored_offset. simpl. by rewrite lookup_insert_eq. Qed.

(** C2, as the code has it.  When the size query gives [S] and the
    stored offset is [O]: for [S = O] nothing is fetched and offset and
    mirror stay as they are; for [O < S] the range read is issued from
    byte [O] and, when it returns, the stored offset (in memory and in
    the offsets file) becomes [S] if the read succeeded and stays [O]
    otherwise; on success the bytes the read returned are appended to
    the mirror as they are, so the mirror grows by their number, which
    is [S - O] when the read returned [S - O] bytes. *)
Theorem offset_advances_iff_fetch_succeeds
    (src : Source) (replies : Replies) (st : Local) (S : Z) (p : CompletedProcess) :
  remote_stat_size (on_stat replies) = Ok (Some S) →
  let key := name src in
  let O := stored_offset st key in
  (S = O →
   ∃ st', collect_source src replies st = Ok st'
     ∧ offsets st' = offsets st ∧ offsets_file st' = offsets_file st
     ∧ mirrors st' = mirrors st
     ∧ status_log st' = status_log st ++ [no_change (name src) (host src) S])
  ∧ (O < S → on_tail replies (O + 1) = Ok p →
     (returncode p = 0 →
      ∃ st', collect_source src replies st = Ok st'
        ∧ stored_offset st' key = S
        ∧ offsets_file st' = Stored (offsets st')
        ∧ mirror st' key = mirror st key ++ Py.encode (stdout p)
        ∧ (Z.of_nat (length (Py.encode (stdout p))) = S - O →
           Z.of_nat (length (mirror st' key))
             = Z.of_nat (length (mirror st key)) + (S - O)))
     ∧ (returncode p ≠ 0 →
        ∃ st', collect_source src replies st = Ok st'
          ∧ stored_offset st' key = O
          ∧ offsets st' = offsets st ∧ offsets_file st' = offsets_file st
          ∧ mirrors st' = mirrors st
          ∧ status_log st' =
              status_log st ++ [fetch_failed (name src) (host src) S O])).
Proof.
  intros Hs key O. split.
  - intros Heq. eexists. split.
    + apply (collect_source_no_change src replies st S Hs). fold key. fold O.
      rewrite Heq, Z.ltb_irrefl. done.
    + done.
  - intros Hlt Ht.
    assert (Hfrom : (if S <? O then 0 else O) = O).
    { destruct (Z.ltb_spec S O); [lia | done]. }
    split.
    + intros Hrc. eexists. split.
      * apply (collect_source_fetched src replies st S p Hs).
        -- fold key. fold O. rewrite Hfrom. lia.
        -- fold key. fold O. by rewrite Hfrom.
        -- done.
      * fold key. rewrite stored_offset_after_insert, (mirror_after_insert st).
        repeat split; try done.
        intros Hlen. rewrite length_app. lia.
    + intros Hrc. eexists. split.
      * apply (collect_source_fetch_failed src replies st S p Hs).
        -- fold key. fold O. rewrite Hfrom. lia.
        -- fold key. fold O. by rewrite Hfrom.
        -- done.
      * fold key. fold O. rewrite Hfrom. done.
Qed.

(** The example source with a remote file of 3 bytes: a first cycle
    that fetches them, a cycle whose fetch fails, and a cycle that finds
    nothing new. *)
Lemma offset_advances_iff_fetch_succeeds_witness :
  let key := name smart_house_pi3 in
  let size3 := completed 0 ("3" ++ Py.nl)%string in
  let up := {| on_stat := size3; on_tail := λ _, completed 0 "abc" |} in
  let down := {| on_stat := size3; on_tail := λ _, completed 255 "" |} in
  let seen := {| offsets := {[ key := 3 ]}; offsets_file := Stored {[ key := 3 ]};
                 mirrors := ∅; status_log := [] |} in
  (∃ st', collect_source smart_house_pi3 up seen = Ok st'
     ∧ offsets st' = offsets seen ∧ mirrors st' = mirrors seen)
  ∧ (∃ st', collect_source smart_house_pi3 up fresh = Ok st'
       ∧ stored_offset st' key = 3
       ∧ Z.of_nat (length (mirror st' key)) = Z.of_nat (length (mirror fresh key)) + (3 - 0))
  ∧ (∃ st', collect_source smart_house_pi3 down fresh = Ok st'
       ∧ stored_offset st' key = 0 ∧ mirrors st' = mirrors fresh).
Proof.
  intros key size3 up down seen.
  split; [|split].
  - destruct (offset_advances_iff_fetch_succeeds smart_house_pi3 up seen 3
                {| returncode := 0; stdout := "abc" |}) as [Hsame _];
      [reflexivity|].
    destruct Hsame as (st' & Hrun & Ho & _ & Hm & _); [reflexivity|].
    exists st'. repeat split; assumption.
  - destruct (offset_advances_iff_fetch_succeeds smart_house_pi3 up fresh 3
                {| returncode := 0; stdout := "abc" |}) as [_ Hnew];
      [reflexivity|].
    destruct Hnew as [Hok _]; [reflexivity | reflexivity |].
    destruct Hok as (st' & Hrun & Ho & _ & _ & Hlen); [reflexivity|].
    exists st'. repeat split; [assumption | assumption |].
    apply Hlen. reflexivity.
  - destruct (offset_advances_iff_fetch_succeeds smart_house_pi3 down fresh 3
                {| returncode := 255; stdout := "" |}) as [_ Hnew];
      [reflexivity|].
    destruct Hnew as [_ Hfail]; [reflexivity | reflexivity |].
    destruct Hfail as (st' & Hrun & Ho & _ & _ & Hm & _); [discriminate|].
    exists st'. repeat split; assumption.
Defined.

(** C2 as stated fails: the size query reports 3 bytes, the stored
    offset is 0, and by the time the range read runs the remote file has
    grown to 5 bytes.  The read succeeds; the mirror grows by 5 bytes,
    not by [S - O = 3], and the stored offset becomes 3. *)
Lemma mirror_growth_is_not_size_delta :
  let key := name smart_house_pi3 in
  let replies := {| on_stat := completed 0 ("3" ++ Py.nl)%string;
                    on_tail := λ _, completed 0 "hello" |} in
  remote_stat_size (on_stat replies) = Ok (Some 3)
  ∧ stored_offset fresh key = 0
  ∧ (∃ tmp, sftp_read_range replies 0 = Ok (Some tmp))
  ∧ ∃ st', collect_source smart_house_pi3 replies fresh = Ok st'
      ∧ stored_offset st' key = 3
      ∧ length (mirror fresh key) = 0%nat
      ∧ length (mirror st' key) = 5%nat
      ∧ Z.of_nat (length (mirror st' key))
          ≠ Z.of_nat (length (mirror fresh key)) + (3 - 0).
Proof.
  intros key replies. split; [reflexivity|]. split; [reflexivity|].
  split; [eexists; reflexivity|].
  eexists. split.
  - apply (collect_source_fetched smart_house_pi3 replies fresh 3
             {| returncode := 0; stdout := "hello" |}); done.
  - fold key. rewrite stored_offset_after_insert, (mirror_after_insert fresh).
    vm_compute. repeat split; congruence.
Qed.




(** C9, as the code has it.  When the range read is issued and [run]
    returns: a non-zero exit status makes [sftp_read_range] return
    [False], and the cycle records [fetch_failed] and changes neither
    offset nor mirror; exit status 0 with empty output, which is what
    the command gives when the remote file is absent, makes it return
    [True] with nothing to append: the mirror stays as it is and the
    stored offset is set to the size the size query reported. *)
Theorem fetch_failure_and_absent_file
    (src : Source) (replies : Replies) (st : Local) (S : Z) (p : CompletedProcess) :
  remote_stat_size (on_stat replies) = Ok (Some S) →
  let key := name src in
  let O := stored_offset st key in
  let from := if S <? O then 0 else O in
  S ≠ from → on_tail replies (from + 1) = Ok p →
  (returncode p ≠ 0 →
   sftp_read_range replies from = Ok None
   ∧ ∃ st', collect_source src replies st = Ok st'
       ∧ offsets st' = offsets st ∧ offsets_file st' = offsets_file st
       ∧ mirrors st' = mirrors st
       ∧ status_log st' =
           status_log st ++ [fetch_failed (name src) (host src) S from])
  ∧ (returncode p = 0 → stdout p = EmptyString →
     sftp_read_range replies from = Ok (Some [])
     ∧ ∃ st', collect_source src replies st = Ok st'
         ∧ mirror st' key = mirror st key
         ∧ stored_offset st' key = S
         ∧ offsets_file st' = Stored (offsets st')
         ∧ status_log st' =
             status_log st ++ [ok (name src) (host src) 0 S (remote_path src)]).
Proof.
  intros Hs key O from Hne Ht. split.
  - intros Hrc. split.
    + unfold sftp_read_range. rewrite Ht. simpl.
      apply Z.eqb_neq in Hrc. by rewrite Hrc.
    + eexists. split;
        [by apply (collect_source_fetch_failed src replies st S p Hs) | done].
  - intros Hrc Hout. split.
    + unfold sftp_read_range. rewrite Ht. simpl. by rewrite Hrc, Hout.
    + eexists. split;
        [by apply (collect_source_fetched src replies st S p Hs)|].
      fold key. rewrite stored_offset_after_insert, (mirror_after_insert st).
      rewrite Hout. simpl. by rewrite app_nil_r.
Qed.

(** The example source with a remote file of 3 bytes: [ssh] exits with
    255, and the file is gone when the range read runs. *)
Lemma fetch_failure_and_absent_file_witness :
  let key := name smart_house_pi3 in
  let size3 := completed 0 ("3" ++ Py.nl)%string in
  let down := {| on_stat := size3; on_tail := λ _, completed 255 "" |} in
  let gone := {| on_stat := size3; on_tail := λ _, completed 0 "" |} in
  (sftp_read_range down 0 = Ok None
   ∧ ∃ st', collect_source smart_house_pi3 down fresh = Ok st'
       ∧ offsets st' = offsets fresh ∧ mirrors st' = mirrors fresh)
  ∧ (sftp_read_range gone 0 = Ok (Some [])
     ∧ ∃ st', collect_source smart_house_pi3 gone fresh = Ok st'
         ∧ mirror st' key = mirror fresh key ∧ stored_offset st' key = 3).
Proof.
  intros key size3 down gone. split.
  - destruct (fetch_failure_and_absent_file smart_house_pi3 down fresh 3
                {| returncode := 255; stdout := "" |}) as [Hfail _];
      [reflexivity | discriminate | reflexivity |].
    destruct Hfail as (Hread & st' & Hrun & Ho & _ & Hm & _); [discriminate|].
    split; [exact Hread|]. exists st'. repeat split; assumption.
  - destruct (fetch_failure_and_absent_file smart_house_pi3 gone fresh 3
                {| returncode := 0; stdout := "" |}) as [_ Hgone];
      [reflexivity | discriminate | reflexivity |].
    destruct Hgone as (Hread & st' & Hrun & Hm & Ho & _); [reflexivity | reflexivity |].
    split; [exact Hread|]. exists st'. repeat split; assumption.
Defined.

(** C9 as stated fails: the size query reports 3 bytes and the remote
    file is removed before the range read runs, so the read exits with
    status 0 and no output.  Nothing is appended, and the stored offset
    becomes 3, not 0. *)
Lemma absent_file_sets_offset_to_size :
  let key := name smart_house_pi3 in
  let gone := {| on_stat := completed 0 ("3" ++ Py.nl)%string;
                 on_tail := λ _, completed 0 "" |} in
  sftp_read_range gone 0 = Ok (Some [])
  ∧ ∃ st', collect_source smart_house_pi3 gone fresh = Ok st'
      ∧ mirror st' key = mirror fresh key
      ∧ offsets st' !! key = Some 3
      ∧ offsets_file st' = Stored {[ key := 3 ]}
      ∧ stored_offset st' key ≠ 0.
Proof.
  intros key gone. split; [reflexivity|].
  eexists. split.
  - apply (collect_source_fetched smart_house_pi3 gone fresh 3
             {| returncode := 0; stdout := "" |}); done.
  - fold key. rewrite stored_offset_after_insert, (mirror_after_insert fresh).
    simpl. rewrite lookup_insert_eq, app_nil_r.
    repeat split; done.
Qed.

(** C10.  An offsets file that exists and does not load, and a missing
    offsets file, both leave [offsets] empty; [main] does not fail on
    them.  Every source then has the stored offset 0, and a first cycle
    that finds a remote file of size [S > 0] reads it from its first
    byte (start 1) and appends all that this read returns. *)
Theorem unreadable_offsets_file_means_empty_map
    (file : OffsetsFile) (src : Source) (replies : Replies)
    (mirrors0 : gmap string (list Byte.byte)) (log0 : list Status)
    (S : Z) (p : CompletedProcess) :
  load_offsets Garbled = ∅
  ∧ load_offsets Missing = ∅
  ∧ (file = Garbled ∨ file = Missing →
     let st0 := {| offsets := load_offsets file; offsets_file := file;
                   mirrors := mirrors0; status_log := log0 |} in
     stored_offset st0 (name src) = 0
     ∧ main file mirrors0 log0 true [src] [] = Ok st0
     ∧ (remote_stat_size (on_stat replies) = Ok (Some S) → S ≠ 0 →
        on_tail replies 1 = Ok p → returncode p = 0 →
        ∃ st', main file mirrors0 log0 true [src] [λ _, replies] = Ok st'
          ∧ offsets st' = {[ name src := S ]}
          ∧ offsets_file st' = Stored {[ name src := S ]}
          ∧ mirror st' (name src) =
              default [] (mirrors0 !! name src) ++ Py.encode (stdout p))).
Proof.
  split; [reflexivity|]. split; [reflexivity|].
  intros Hfile st0.
  assert (Hempty : load_offsets file = ∅) by (by destruct Hfile as [-> | ->]).
  assert (Hzero : stored_offset st0 (name src) = 0).
  { unfold stored_offset, st0. simpl. by rewrite Hempty, lookup_empty. }
  split; [exact Hzero|]. split; [reflexivity|].
  intros Hs Hne Ht Hrc. unfold main, main_loop, cycle. fold st0.
  rewrite (collect_source_fetched src replies st0 S p Hs).
  - simpl. eexists. split; [reflexivity|].
    rewrite (mirror_after_insert st0). simpl. rewrite Hempty.
    repeat split; done.
  - rewrite Hzero. destruct (Z.ltb_spec S 0); congruence.
  - rewrite Hzero. destruct (Z.ltb_spec S 0); exact Ht.
  - exact Hrc.
Qed.

(** A garbled offsets file next to a mirror of 2 bytes: the first cycle
    fetches the remote file of 3 bytes from its start. *)
Lemma unreadable_offsets_file_means_empty_map_witness :
  let key := name smart_house_pi3 in
  let replies := {| on_stat := completed 0 ("3" ++ Py.nl)%string;
                    on_tail := λ start, if start =? 1 then completed 0 "abc"
                                        else completed 0 "" |} in
  let mirrors0 : gmap string (list Byte.byte) := {[ key := Py.encode "xy" ]} in
  ∃ st', main Garbled mirrors0 [] true [smart_house_pi3] [λ _, replies] = Ok st'
    ∧ offsets st' = {[ key := 3 ]}
    ∧ mirror st' key = Py.encode "xyabc".
Proof.
  intros key replies mirrors0.
  destruct (unreadable_offsets_file_means_empty_map Garbled smart_house_pi3 replies
              mirrors0 [] 3 {| returncode := 0; stdout := "abc" |})
    as (_ & _ & Hmain).
  destruct Hmain as (_ & _ & Hfetch); [by left|].
  destruct Hfetch as (st' & Hrun & Ho & _ & Hm);
    [reflexivity | discriminate | reflexivity | reflexivity |].
  exists st'. split; [exact Hrun|]. split; [exact Ho|].
  unfold key. rewrite Hm. vm_compute. reflexivity.
Defined.

(** A pass over the sources returns when no call of [run] raises and
    every size is a decimal number, and it writes one status record per
    source. *)
Lemma cycle_returns (remote : Source → Replies) (sources : list Source) (st : Local) :
  (∀ src, src ∈ sources →
     (∃ size, remote_stat_size (on_stat (remote src)) = Ok size)
     ∧ ∀ start, ∃ p, on_tail (remote src) start = Ok p) →
  ∃ st', cycle remote sources st = Ok st'
    ∧ length (status_log st') = (length (status_log st) + length sources)%nat.
Proof.
  revert st. induction sources as [|src rest IH]; intros st Hall.
  - exists st. simpl. split; [done | lia].
  - destruct (Hall src) as [[size Hsize] Htail]; [by left|].
    assert (Hone : ∃ st1, collect_source src (remote src) st = Ok st1
              ∧ length (status_log st1) = S (length (status_log st))).
    { unfold collect_source, sftp_read_range. rewrite Hsize. simpl.
      destruct size as [size|].
      - destruct (size =? _).
        + eexists. split; [done|]. simpl. rewrite length_app. simpl. lia.
        + destruct (Htail ((if size <? stored_offset st (name src) then 0
                            else stored_offset st (name src)) + 1)) as [p Hp].
          rewrite Hp. simpl. destruct (returncode p =? 0); simpl.
          * rewrite append_file_all. eexists. split; [done|].
            simpl. rewrite length_app. simpl. lia.
          * eexists. split; [done|]. simpl. rewrite length_app. simpl. lia.
      - eexists. split; [done|]. simpl. rewrite length_app. simpl. lia. }
    destruct Hone as (st1 & Hrun & Hlen).
    destruct (IH st1) as (st' & Hrest & Hlen').
    { intros s Hs. apply Hall. by right. }
    exists st'. simpl. rewrite Hrun. simpl. split; [exact Hrest|].
    rewrite Hlen', Hlen. lia.
Qed.

(** An exception in the body for one source ends the pass: the
    sources after it are not visited. *)
Lemma cycle_stops_at_exception (remote : Source → Replies)
    (before rest : list Source) (src : Source) (st st1 : Local) (e : Exn) :
  cycle remote before st = Ok st1 →
  collect_source src (remote src) st1 = Raise e →
  cycle remote (before ++ src :: rest) st = Raise e.
Proof.
  revert st. induction before as [|s0 before IH]; intros st Hrun Hraise.
  - simpl in *. injection Hrun as ->. by rewrite Hraise.
  - simpl in *. destruct (collect_source s0 (remote s0) st) as [st0|e0]; simpl in *.
    + by apply IH.
    + discriminate.
Qed.

(** A call of [run] that raises makes the body raise. *)
Lemma collect_source_stat_raises (src : Source) (replies : Replies) (st : Local) (e : Exn) :
  on_stat replies = Raise e → collect_source src replies st = Raise e.
Proof.
  intros Hs. unfold collect_source, remote_stat_size. by rewrite Hs.
Qed.

(** An exception in a pass ends the loop. *)
Lemma main_loop_stops_at_exception (once : bool) (sources : list Source)
    (remote : Source → Replies) (later : list (Source → Replies)) (st : Local) (e : Exn) :
  cycle remote sources st = Raise e →
  main_loop once sources (remote :: later) st = Raise e.
Proof. intros Hc. simpl. by rewrite Hc. Qed.

(** C4.  Two sources; the size query for the first one runs into the
    timeout of [subprocess.run].  [TimeoutExpired] is caught nowhere:
    the pass over the sources, and with it [main], ends with the
    exception, no status record is written and the second source is
    not visited.  The same holds when the range read times out.  When
    [ssh] returns with exit status 255 instead, the first source is
    recorded as [unreachable_or_missing] and the second is collected. *)
Theorem timeout_ends_the_polling_loop :
  let other := {| name := "attic_pi"; host := "192.168.1.51"; user := "pi";
                  remote_path := "/var/log/iot_auth_events.jsonl"; port := 22 |} in
  let size3 := completed 0 ("3" ++ Py.nl)%string in
  let up := {| on_stat := size3; on_tail := λ _, completed 0 "abc" |} in
  let hung := {| on_stat := Raise TimeoutExpired; on_tail := λ _, completed 0 "abc" |} in
  let stalls := {| on_stat := size3; on_tail := λ _, Raise TimeoutExpired |} in
  let down := {| on_stat := completed 255 ""; on_tail := λ _, completed 255 "" |} in
  let first (r : Replies) (src : Source) :=
    if String.eqb (name src) "smart_house_pi3" then r else up in
  let sources := [smart_house_pi3; other] in
  cycle (first hung) sources fresh = Raise TimeoutExpired
  ∧ main Missing ∅ [] false sources [first hung; first up; first up]
    = Raise TimeoutExpired
  ∧ main Missing ∅ [] false sources [first stalls; first up; first up]
    = Raise TimeoutExpired
  ∧ ∃ st', cycle (first down) sources fresh = Ok st'
      ∧ status_log st' =
          [unreachable_or_missing "smart_house_pi3" "192.168.1.50"
             "Could not stat /var/log/iot_auth_events.jsonl";
           ok "attic_pi" "192.168.1.51" 3 3 "/var/log/iot_auth_events.jsonl"]
      ∧ offsets st' = {[ "attic_pi"%string := 3 ]}.
Proof.
  intros other size3 up hung stalls down first sources.
  split; [reflexivity|]. split; [reflexivity|]. split; [reflexivity|].
  unfold sources, cycle.
  rewrite (collect_source_unreachable smart_house_pi3 (first down smart_house_pi3))
    by reflexivity.
  simpl bind.
  rewrite (collect_source_fetched other (first down other) _ 3
             {| returncode := 0; stdout := "abc" |}); try done.
  simpl bind. eexists. split; [reflexivity|]. simpl. split; reflexivity.
Qed.

End CollectorFacts.

(** ** Further properties of the alert engine *)

Section AlertStreamFacts.

Import Alerts.

Lemma event_is_eq (evt : Event) (name : string) :
  event_is evt name = true ↔ ev_event evt = Some name.
Proof.
  unfold event_is. destruct (ev_event evt) as [e|]; [|split; discriminate].
  rewrite String.eqb_eq. split; congruence.
Qed.

(** The loop body written by the branch it takes. *)
Lemma step_branches (args : Args) (now : Z) (st : State) (evt : Event) :
  let ts := event_time now evt in
  let cutoff := ts - window args in
  step args now st evt =
    match failure_ip evt with
    | Some ip =>
        let dq := popleft_while cutoff (default [] (fails_by_ip st !! ip) ++ [ts]) in
        ({| fails_by_ip := <[ip := dq]> (fails_by_ip st);
            recent_fail_ips := expire cutoff (<[ip := ts]> (recent_fail_ips st)) |},
         if Z.of_nat (length dq) =? fail_threshold args
         then [ssh_bruteforce_suspected now ip (length dq) (window_min args) evt]
         else [])
    | None =>
        ({| fails_by_ip := fails_by_ip st;
            recent_fail_ips := expire cutoff (recent_fail_ips st) |},
         (dispatch args now ts st evt).2)
    end.
Proof.
  intros ts cutoff. unfold step, dispatch, failure_ip. fold ts. fold cutoff.
  destruct (if event_is evt "ssh_failed" then truthy (ev_ip evt) else None)
    as [ip|]; [reflexivity|].
  destruct (if event_is evt "ssh_accepted" then truthy (ev_ip evt) else None)
    as [ip|]; [reflexivity|].
  destruct (event_is evt "sudo" && alert_sudo args); reflexivity.
Qed.

(** X1.  An input record gives rise to at most one alert. *)
Theorem at_most_one_alert_per_event
    (args : Args) (now : Z) (st : State) (evt : Event) :
  (length (step args now st evt).2 ≤ 1)%nat.
Proof.
  unfold step, dispatch, on_failed, on_accepted.
  repeat (case_match; simplify_eq/=); lia.
Qed.

(** X2.  An input record changes the deque of no IP other than the one
    it is a failed login of: a record that is no failed login with an
    IP leaves [fails_by_ip] as it is, whatever else it holds. *)
Theorem other_deques_untouched
    (args : Args) (now : Z) (st : State) (evt : Event) (ip : string) :
  failure_ip evt ≠ Some ip →
  fails_by_ip (step args now st evt).1 !! ip = fails_by_ip st !! ip.
Proof.
  intros Hne. rewrite step_branches.
  destruct (failure_ip evt) as [ip'|]; simpl; [|done].
  apply lookup_insert_ne. congruence.
Qed.

Lemma other_deques_untouched_witness :
  let args := {| fail_threshold := 3; window_min := 5; alert_sudo := true |} in
  let st := (step args 0 initial (failed "10.0.0.5" 7)).1 in
  fails_by_ip (step args 0 st (accepted "10.0.0.5" 9)).1 !! "10.0.0.5"%string
    = fails_by_ip st !! "10.0.0.5"%string
  ∧ fails_by_ip (step args 0 st (failed "10.0.0.9" 9)).1 !! "10.0.0.5"%string
    = fails_by_ip st !! "10.0.0.5"%string.
Proof.
  intros args st. split.
  - apply other_deques_untouched. vm_compute. discriminate.
  - apply other_deques_untouched. vm_compute. discriminate.
Defined.


Lemma popleft_while_keeps_last (cutoff t : Z) (dq : list Z) :
  cutoff ≤ t → ∃ front, popleft_while cutoff (dq ++ [t]) = front ++ [t].
Proof.
  intros Ht. induction dq as [|x rest IH]; simpl.
  - destruct (Z.ltb_spec t cutoff); [lia|]. by exists [].
  - destruct (x <? cutoff); [exact IH|]. by exists (x :: rest).
Qed.

(** X4.  With a window that is not negative, the deque of an IP holds
    at least the failure just recorded, so a threshold of zero or less
    never raises [ssh_bruteforce_suspected]. *)
Theorem no_alert_below_threshold_one
    (args : Args) (now : Z) (st : State) (evt : Event) (ip : string) :
  failure_ip evt = Some ip → 0 ≤ window_min args →
  (∃ front, fails_by_ip (step args now st evt).1 !! ip
              = Some (front ++ [event_time now evt]))
  ∧ (fail_threshold args ≤ 0 → (step args now st evt).2 = []).
Proof.
  intros Hip Hw. rewrite step_branches, Hip. simpl.
  destruct (popleft_while_keeps_last
              (event_time now evt - window args) (event_time now evt)
              (default [] (fails_by_ip st !! ip))) as [front Hfront].
  { unfold window, timedelta_minutes. lia. }
  rewrite Hfront. split.
  - exists front. apply lookup_insert_eq.
  - intros Hth. rewrite length_app. simpl.
    destruct (Z.eqb_spec (Z.of_nat (length front + 1)) (fail_threshold args)); [lia|done].
Qed.

Lemma no_alert_below_threshold_one_witness :
  let args := {| fail_threshold := 0; window_min := 5; alert_sudo := false |} in
  (step args 0 initial (failed "10.0.0.5" 7)).2 = []
  ∧ ∃ front, fails_by_ip (step args 0 initial (failed "10.0.0.5" 7)).1
               !! "10.0.0.5"%string = Some (front ++ [7]).
Proof.
  intros args.
  destruct (no_alert_below_threshold_one args 0 initial (failed "10.0.0.5" 7)
              "10.0.0.5") as [Hdq Hnone]; [reflexivity | simpl; lia |].
  split; [apply Hnone; simpl; lia | exact Hdq].
Defined.

Lemma failure_times_snoc (now : Z) (ip : string) (hist : list Event) (evt : Event) :
  failure_times now ip (hist ++ [evt]) =
    failure_times now ip hist ++
      (if decide (failure_ip evt = Some ip) then [event_time now evt] else []).
Proof.
  unfold failure_times. rewrite omap_app. f_equal. csimpl.
  by destruct (decide (failure_ip evt = Some ip)).
Qed.









Lemma truthy_Some (o : option string) (ip : string) :
  truthy o = Some ip → o = Some ip ∧ ip ≠ EmptyString.
Proof.
  unfold truthy. destruct o as [s0|]; [|discriminate].
  destruct (String.eqb_spec s0 ""); [discriminate|]. intros [= ->]. done.
Qed.

(** Where an [ssh_success_after_failures] alert comes from. *)
Lemma success_alert_inv (args : Args) (now : Z) (st : State) (evt : Event)
    (ts : Z) (ip : string) (t wm : Z) (e : Event) :
  ssh_success_after_failures ts ip t wm e ∈ (step args now st evt).2 →
  ev_event evt = Some "ssh_accepted"%string ∧ ev_ip evt = Some ip
  ∧ recent_fail_ips st !! ip = Some t
  ∧ event_time now evt - t ≤ window args
  ∧ ts = now ∧ wm = window_min args ∧ e = evt.
Proof.
  unfold step, dispatch, on_failed, on_accepted, event_time.
  intros H.
  repeat (case_match; simplify_eq/=);
    repeat match goal with
           | H : _ ∈ [] |- _ => by apply elem_of_nil in H
           | H : _ ∈ [_] |- _ => apply list_elem_of_singleton in H; simplify_eq
           end.
  match goal with H : truthy _ = Some _ |- _ => apply truthy_Some in H as [? _] end.
  match goal with H : event_is _ _ = true |- _ => apply event_is_eq in H end.
  match goal with H : (_ <=? _) = true |- _ => apply Z.leb_le in H end.
  repeat split; done.
Qed.

Lemma last_failure_step (args : Args) (now : Z) (hist : list Event) (st : State)
    (evt : Event) :
  (∀ ip t, recent_fail_ips st !! ip = Some t →
           last (failure_times now ip hist) = Some t) →
  ∀ ip t, recent_fail_ips (step args now st evt).1 !! ip = Some t →
          last (failure_times now ip (hist ++ [evt])) = Some t.
Proof.
  intros Hinv ip t. rewrite step_branches, failure_times_snoc.
  destruct (failure_ip evt) as [ip'|] eqn:Hf; simpl; unfold expire;
    intros H; apply map_lookup_filter_Some in H as [H _].
  - destruct (decide (Some ip' = Some ip)) as [Heq|Hne].
    + injection Heq as ->. rewrite lookup_insert_eq in H.
      injection H as ->. apply last_snoc.
    + rewrite lookup_insert_ne in H by congruence.
      rewrite app_nil_r. by apply Hinv.
  - rewrite app_nil_r. by apply Hinv.
Qed.

Lemma last_failure_run (args : Args) (now : Z) (evts hist : list Event) (st : State) :
  (∀ ip t, recent_fail_ips st !! ip = Some t →
           last (failure_times now ip hist) = Some t) →
  ∀ ip t, recent_fail_ips (run args now st evts).1 !! ip = Some t →
          last (failure_times now ip (hist ++ evts)) = Some t.
Proof.
  revert hist st. induction evts as [|evt rest IH]; intros hist st Hinv.
  - by rewrite app_nil_r.
  - rewrite run_cons.
    pose proof (last_failure_step args now hist st evt Hinv) as Hstep.
    destruct (step args now st evt) as [st1 a1].
    specialize (IH (hist ++ [evt]) st1 Hstep).
    destruct (run args now st1 rest) as [st2 a2]. simpl in *.
    replace (hist ++ evt :: rest) with ((hist ++ [evt]) ++ rest)
      by (by rewrite <- app_assoc).
    exact IH.
Qed.

(** X6.  An [ssh_success_after_failures] alert is raised only by an
    [ssh_accepted] record with an IP, and the failure timestamp it
    carries is that of the latest failed login of this IP among the
    records read before, which lies no more than a window before the
    record's own time. *)
Theorem success_alert_names_latest_failure
    (args : Args) (now : Z) (evts : list Event) (evt : Event)
    (ts : Z) (ip : string) (t wm : Z) (e : Event) :
  ssh_success_after_failures ts ip t wm e
    ∈ (step args now (run args now initial evts).1 evt).2 →
  ev_event evt = Some "ssh_accepted"%string ∧ ev_ip evt = Some ip
  ∧ last (failure_times now ip evts) = Some t
  ∧ event_time now evt - t ≤ window args.
Proof.
  intros H. apply success_alert_inv in H as (Hev & Hip & Hrec & Hle & _).
  repeat split; try done.
  apply (last_failure_run args now evts [] initial); [|exact Hrec].
  intros ip' t'. simpl. by rewrite lookup_empty.
Qed.

Lemma success_alert_names_latest_failure_witness :
  let args := {| fail_threshold := 8; window_min := 5; alert_sudo := false |} in
  let a := "10.0.0.5"%string in
  last (failure_times 0 a [failed a 10; failed "10.0.0.9" 20; failed a 30]) = Some 30.
Proof.
  intros args a.
  refine (proj1 (proj2 (proj2 (success_alert_names_latest_failure args 0
            [failed a 10; failed "10.0.0.9" 20; failed a 30] (accepted a 40)
            0 a 30 5 (accepted a 40) _)))).
  vm_compute. apply list_elem_of_singleton. reflexivity.
Defined.

Lemma step_keys (args : Args) (now : Z) (st : State) (evt : Event) :
  dom (fails_by_ip (step args now st evt).1)
    = dom (fails_by_ip st) ∪ list_to_set (omap failure_ip [evt]).
Proof.
  rewrite step_branches. csimpl.
  destruct (failure_ip evt) as [ip|]; simpl.
  - rewrite dom_insert_L, union_empty_r_L. apply (comm_L (∪)).
  - by rewrite union_empty_r_L.
Qed.

(** X7.  The keys of [fails_by_ip] are the IPs it held at the start
    together with every IP that had a failed login since: no record,
    however late, removes one. *)
Theorem fails_by_ip_holds_every_failed_ip
    (args : Args) (now : Z) (st : State) (evts : list Event) :
  dom (fails_by_ip (run args now st evts).1)
    = dom (fails_by_ip st) ∪ list_to_set (omap failure_ip evts).
Proof.
  revert st. induction evts as [|evt rest IH]; intros st.
  - simpl. by rewrite union_empty_r_L.
  - rewrite run_cons. pose proof (step_keys args now st evt) as Hstep.
    destruct (step args now st evt) as [st1 a1]. specialize (IH st1).
    destruct (run args now st1 rest) as [st2 a2]. cbn [fst snd] in *.
    rewrite IH, Hstep.
    rewrite (omap_app failure_ip [evt] rest : omap failure_ip (evt :: rest) = _).
    by rewrite list_to_set_app_L, (assoc_L (∪)).
Qed.



End AlertStreamFacts.

(** ** Further properties of the line follower *)

Section FollowerStreamFacts.

Import Follower.

Local Open Scope string_scope.




Lemma readline_empty (s : string) : Py.is_empty (readline s) = Py.is_empty s.
Proof. destruct s as [|c r]; [done|]. simpl. by destruct (Py.is_LF c). Qed.

Lemma is_empty_true (s : string) : Py.is_empty s = true ↔ s = EmptyString.
Proof. destruct s; simpl; split; congruence. Qed.




(** An iteration at the end of the file, with the path still naming
    the file that was opened. *)
Lemma poll_idle (post : string → string) (fs : Fs) (h : Handle) (cur : option N) :
  skip (h_pos h) (content fs (h_ino h)) = EmptyString →
  rotated (inode fs) cur = false →
  poll post fs {| f := Some h; current_inode := cur |} =
    ({| f := Some h; current_inode := cur |}, None).
Proof. intros Hu Hr. unfold poll. simpl. by rewrite Hu, Hr. Qed.

Lemma play_polls_cons (post : string → string) (n : nat) (fs : Fs) (st : State) :
  play post (repeat Poll (S n)) (fs, st) =
    (let '(st', y) := poll post fs st in
     let '(w2, out2) := play post (repeat Poll n) (fs, st') in
     (w2, (match y with Some l => [l] | None => [] end ++ out2)%list)).
Proof. simpl. by destruct (poll post fs st). Qed.






Lemma play_idle (post : string → string) (n : nat) (fs : Fs) (h : Handle)
    (cur : option N) :
  skip (h_pos h) (content fs (h_ino h)) = EmptyString →
  rotated (inode fs) cur = false →
  play post (repeat Poll n) (fs, {| f := Some h; current_inode := cur |}) =
    ((fs, {| f := Some h; current_inode := cur |}), []).
Proof.
  intros Hu Hr. induction n as [|n IH]; [done|].
  rewrite play_polls_cons, (poll_idle post fs h cur Hu Hr), IH. reflexivity.
Qed.

(** X10.  What the file holds when it is opened is never yielded: the
    iteration that opens it leaves the handle at the end of the file,
    and however many iterations follow without a write, nothing is
    yielded. *)
Theorem existing_content_is_never_yielded
    (post : string → string) (fs : Fs) (i : N) (cur : option N) (n : nat) :
  path_ino fs = Some i →
  play post (repeat Poll (S n)) (fs, {| f := None; current_inode := cur |}) =
    ((fs, {| f := Some {| h_ino := i; h_pos := String.length (content fs i) |};
             current_inode := Some i |}), []).
Proof.
  intros Hp. rewrite play_polls_cons, (open_skips_existing post fs cur i Hp).
  rewrite play_idle; [reflexivity | apply skip_length |].
  unfold rotated, inode. rewrite Hp. by rewrite N.eqb_refl.
Qed.

Lemma existing_content_is_never_yielded_witness :
  let fs := {| path_ino := Some 1%N;
               contents := {[ 1%N := "old" ++ Py.nl ++ "older" ++ Py.nl ]} |} in
  (play Py.rstrip_nl [Poll; Poll; Poll] (fs, start fs)).2 = [].
Proof.
  intros fs.
  exact (f_equal snd (existing_content_is_never_yielded Py.rstrip_nl fs 1%N
                        (Some 1%N) 2 eq_refl)).
Defined.

(** X11.  While the path names no file the generator neither yields
    nor ends nor changes its state, for any number of iterations. *)
Theorem missing_file_is_awaited
    (post : string → string) (fs : Fs) (cur : option N) (n : nat) :
  path_ino fs = None →
  play post (repeat Poll n) (fs, {| f := None; current_inode := cur |}) =
    ((fs, {| f := None; current_inode := cur |}), []).
Proof.
  intros Hp. induction n as [|n IH]; [done|].
  rewrite play_polls_cons, (poll_waits_for_file post fs cur Hp), IH. reflexivity.
Qed.

Lemma missing_file_is_awaited_witness :
  let fs := {| path_ino := None; contents := ∅ |} in
  play Py.strip [Poll; Poll; Poll; Poll] (fs, start fs) = ((fs, start fs), []).
Proof.
  intros fs. exact (missing_file_is_awaited Py.strip fs None 4 eq_refl).
Defined.

(** X12.  An iteration gives up its handle exactly when nothing is left
    to read from it and the path names a file with another inode than
    the one recorded at the opening: never while unread text remains,
    and never because the path names nothing. *)
Theorem handle_dropped_iff_drained_and_rotated
    (post : string → string) (fs : Fs) (h : Handle) (cur : option N) :
  f (poll post fs {| f := Some h; current_inode := cur |}).1 = None
  ↔ skip (h_pos h) (content fs (h_ino h)) = EmptyString
    ∧ ∃ new old, path_ino fs = Some new ∧ cur = Some old ∧ new ≠ old.
Proof.
  unfold poll, rotated, inode. simpl. rewrite readline_empty.
  destruct (Py.is_empty _) eqn:He.
  - apply is_empty_true in He. rewrite He.
    destruct (path_ino fs) as [new|], cur as [old|]; simpl;
      try (split; [discriminate | intros (_ & ? & ? & ? & ? & _); discriminate]).
    destruct (N.eqb_spec new old) as [->|Hne]; simpl.
    + split; [discriminate|]. intros (_ & n1 & n2 & [= ->] & [= ->] & ?). done.
    + split; [|done]. intros _. split; [done|]. by exists new, old.
  - simpl. split; [discriminate|]. intros [Hu _].
    apply is_empty_true in Hu. congruence.
Qed.



Lemma readline_shape (s : string) :
  ∃ l, Py.no_LF l = true ∧ (readline s = l ++ Py.nl ∨ readline s = l).
Proof.
  induction s as [|c r (l & Hl & IH)].
  - exists EmptyString. split; [done | by right].
  - simpl. destruct (Py.is_LF c) eqn:Hc.
    + exists EmptyString. split; [done|]. left. simpl. unfold Py.nl. f_equal.
      unfold Py.is_LF in Hc. apply N.eqb_eq in Hc.
      rewrite <- (ascii_N_embedding c), Hc. reflexivity.
    + exists (String c l). split.
      * unfold Py.no_LF. simpl. rewrite Hc. exact Hl.
      * destruct IH as [-> | ->]; [by left | by right].
Qed.

Lemma no_LF_rstrip (s : string) : Py.no_LF s = true → Py.no_LF (Py.rstrip s) = true.
Proof.
  unfold Py.no_LF. induction s as [|c r IH]; simpl; [done|].
  intros H. apply andb_true_iff in H as [Hc Hr].
  destruct (Py.isspace c && Py.is_empty (Py.rstrip r)); [done|].
  simpl. by rewrite Hc, IH.
Qed.

Lemma rstrip_line (x : string) : Py.rstrip (x ++ Py.nl) = Py.rstrip x.
Proof. induction x as [|c r IH]; simpl; [done | by rewrite IH]. Qed.

Lemma lstrip_line (l : string) :
  Py.no_LF l = true →
  ∃ l', Py.no_LF l' = true
        ∧ (Py.lstrip (l ++ Py.nl) = l' ++ Py.nl
           ∨ Py.lstrip (l ++ Py.nl) = EmptyString).
Proof.
  unfold Py.no_LF. induction l as [|c r IH]; simpl.
  - intros _. exists EmptyString. split; [done | by right].
  - intros H. apply andb_true_iff in H as [Hc Hr].
    destruct (Py.isspace c).
    + by apply IH.
    + exists (String c r). split; [|by left]. simpl. by rewrite Hc, Hr.
Qed.

Lemma no_LF_lstrip (s : string) : Py.no_LF s = true → Py.no_LF (Py.lstrip s) = true.
Proof.
  unfold Py.no_LF. induction s as [|c r IH]; simpl; [done|].
  intros H. destruct (Py.isspace c); [|exact H].
  apply andb_true_iff in H as [_ Hr]. by apply IH.
Qed.

(** X14.  No item that the generator yields holds a line feed, for
    either of the two scripts: an item is one line or a piece of one,
    never two lines. *)
Theorem yielded_items_hold_no_line_feed (fs : Fs) (st : State) (y : string) :
  ((poll Py.rstrip_nl fs st).2 = Some y → Py.no_LF y = true)
  ∧ ((poll Py.strip fs st).2 = Some y → Py.no_LF y = true).
Proof.
  assert (Hpoll : ∀ post, (poll post fs st).2 = Some y →
            ∃ s, y = post (readline s)).
  { intros post. unfold poll.
    repeat (case_match; simplify_eq/=); try discriminate;
      intros [= <-]; eexists; reflexivity. }
  split; intros H; apply Hpoll in H as [s ->];
    destruct (readline_shape s) as (l & Hl & [-> | ->]).
  - by rewrite rstrip_nl_line.
  - by rewrite rstrip_nl_partial.
  - unfold Py.strip. destruct (lstrip_line l Hl) as (l' & Hl' & [-> | ->]).
    + rewrite rstrip_line. by apply no_LF_rstrip.
    + done.
  - unfold Py.strip. by apply no_LF_rstrip, no_LF_lstrip.
Qed.

Lemma yielded_items_hold_no_line_feed_witness :
  let fs := {| path_ino := Some 1%N;
               contents := {[ 1%N := "ab" ++ Py.nl ++ "cd" ++ Py.nl ]} |} in
  let st := {| f := Some {| h_ino := 1%N; h_pos := 0 |}; current_inode := Some 1%N |} in
  Py.no_LF "ab" = true.
Proof.
  intros fs st.
  exact (proj1 (yielded_items_hold_no_line_feed fs st "ab") eq_refl).
Defined.

End FollowerStreamFacts.

(** ** Further properties of the collector *)

Section CollectorStreamFacts.

Import Collector.

Local Open Scope string_scope.

(** *** Decimal numbers *)












(** X16.  A size is reported only for exit status 0 and an output
    that, stripped, is a non-empty run of digits, and it is never
    negative; any other exit status and an empty output give [None],
    not a size of zero. *)
Theorem stat_size_is_sound (p : CompletedProcess) (z : Z) :
  (remote_stat_size (Ok p) = Ok (Some z) →
   returncode p = 0%Z ∧ (0 ≤ z)%Z ∧ Py.isdigit (Py.strip (stdout p)) = true)
  ∧ (returncode p ≠ 0%Z → remote_stat_size (Ok p) = Ok None)
  ∧ (Py.strip (stdout p) = EmptyString → remote_stat_size (Ok p) = Ok None).
Proof.
  unfold remote_stat_size. simpl. split; [|split].
  - destruct (Z.eqb_spec (returncode p) 0%Z) as [Hrc|Hrc]; simpl; [|discriminate].
    destruct (Py.isdigit (Py.strip (stdout p))); simpl; [|discriminate].
    unfold Py.int. destruct (Py.all_chars _ _); [|discriminate].
    intros [= <-]. repeat split; [done | lia].
  - intros Hrc. apply Z.eqb_neq in Hrc. by rewrite Hrc.
  - intros ->. by destruct (returncode p =? 0)%Z.
Qed.

Lemma stat_size_is_sound_witness :
  remote_stat_size (completed 255 "") = Ok None
  ∧ remote_stat_size (completed 0 Py.nl) = Ok None
  ∧ (0 ≤ 42)%Z.
Proof.
  pose proof (stat_size_is_sound {| returncode := 255; stdout := "" |} 0)
    as (_ & Hrc & _).
  pose proof (stat_size_is_sound {| returncode := 0; stdout := Py.nl |} 0)
    as (_ & _ & Hempty).
  pose proof (stat_size_is_sound {| returncode := 0; stdout := "42" ++ Py.nl |} 42)
    as (Hsome & _ & _).
  split; [apply Hrc; discriminate|]. split; [apply Hempty; reflexivity|].
  apply Hsome. reflexivity.
Defined.

Lemma stat_size_nonneg (p : CompletedProcess) (z : Z) :
  remote_stat_size (Ok p) = Ok (Some z) → (0 ≤ z)%Z.
Proof.
  unfold remote_stat_size. simpl.
  destruct (returncode p =? 0)%Z; simpl; [|discriminate].
  destruct (Py.isdigit (Py.strip (stdout p))); simpl; [|discriminate].
  unfold Py.int. destruct (Py.all_chars _ _); [|discriminate].
  intros [= <-]. lia.
Qed.

(** *** Shell quoting *)

Lemma unquote_single (s : string) :
  Shell.unquote_from Shell.Single (replace_squote s ++ String squote EmptyString)
  = Some s.
Proof.
  induction s as [|c r IH]; [reflexivity|].
  simpl replace_squote. destruct (Ascii.eqb_spec c squote) as [->|Hne].
  - simpl. simpl in IH. by rewrite IH.
  - simpl. apply Ascii.eqb_neq in Hne. rewrite Hne. simpl in IH. by rewrite IH.
Qed.

(** X17.  Whatever characters a remote path holds, quotes included, the
    text [sh_quote] makes of it is read by the shell as one word, and
    that word is the path. *)
Theorem sh_quote_round_trip (s : string) :
  Shell.unquote (sh_quote s) = Some s.
Proof. unfold sh_quote, Shell.unquote. simpl. apply unquote_single. Qed.

(** *** The state across cycles *)

(** The two ways the loop body ends without an exception: with a
    status record only, or with a fetch that was appended. *)
Lemma collect_source_inv (src : Source) (replies : Replies) (st st' : Local) :
  collect_source src replies st = Ok st' →
  (∃ rec, st' = log_status st rec)
  ∨ (∃ (S : Z) (data : list Byte.byte),
       remote_stat_size (on_stat replies) = Ok (Some S)
       ∧ st' = {| offsets := <[name src := S]> (offsets st);
                  offsets_file := Stored (<[name src := S]> (offsets st));
                  mirrors := <[name src := (mirror st (name src) ++ data)%list]>
                               (mirrors st);
                  status_log := (status_log st ++
                    [ok (name src) (host src) (length data) S (remote_path src)])%list |}).
Proof.
  unfold collect_source, sftp_read_range.
  destruct (remote_stat_size (on_stat replies)) as [[S|]|e]; simpl;
    [|intros [= <-]; left; eauto|discriminate].
  destruct (S =? _)%Z; [intros [= <-]; left; eauto|].
  destruct (on_tail replies _) as [p|e]; simpl; [|discriminate].
  destruct (returncode p =? 0)%Z; simpl; [|intros [= <-]; left; eauto].
  rewrite append_file_all. intros [= <-]. right. eauto.
Qed.

(** What holds across one loop body holds across passes and cycles. *)
Lemma main_loop_preserves (R : Local → Local → Prop) :
  (∀ st, R st st) → (∀ a b c, R a b → R b c → R a c) →
  (∀ src replies st st', collect_source src replies st = Ok st' → R st st') →
  ∀ once sources remotes st st',
    main_loop once sources remotes st = Ok st' → R st st'.
Proof.
  intros Hrefl Htrans Hbody.
  assert (Hcycle : ∀ remote sources st st',
            cycle remote sources st = Ok st' → R st st').
  { intros remote sources. induction sources as [|src rest IH]; intros st st'.
    - intros [= <-]. apply Hrefl.
    - simpl. destruct (collect_source src (remote src) st) as [st1|e] eqn:Hc;
        simpl; [|discriminate].
      intros Hrest. eapply Htrans; [by eapply Hbody | by apply IH]. }
  intros once sources remotes. induction remotes as [|remote rest IH]; intros st st'.
  - intros [= <-]. apply Hrefl.
  - simpl. destruct (cycle remote sources st) as [st1|e] eqn:Hc; simpl; [|discriminate].
    destruct once.
    + intros [= <-]. by eapply Hcycle.
    + intros Hrest. eapply Htrans; [by eapply Hcycle | by apply IH].
Qed.

(** X18.  Mirror files and the status log are only ever appended to:
    across any number of cycles, what a mirror file and the status log
    held at the start is a prefix of what they hold at the end. *)
Theorem mirrors_are_append_only
    (once : bool) (sources : list Source) (remotes : list (Source → Replies))
    (st st' : Local) (key : string) :
  main_loop once sources remotes st = Ok st' →
  mirror st key `prefix_of` mirror st' key
  ∧ status_log st `prefix_of` status_log st'.
Proof.
  revert st st'.
  apply (main_loop_preserves
           (λ a b, mirror a key `prefix_of` mirror b key
                   ∧ status_log a `prefix_of` status_log b)).
  - done.
  - intros a b c [? ?] [? ?]. split; by etrans.
  - intros src replies st st' H.
    apply collect_source_inv in H as [[rec ->] | (S & data & _ & ->)].
    + split; [done | by apply prefix_app_r].
    + split; [|by apply prefix_app_r]. unfold mirror at 2. simpl.
      destruct (decide (name src = key)) as [<-|Hne].
      * rewrite lookup_insert_eq. simpl. by apply prefix_app_r.
      * by rewrite lookup_insert_ne.
Qed.

Lemma mirrors_are_append_only_witness :
  let replies := {| on_stat := completed 0 ("3" ++ Py.nl);
                    on_tail := λ _, completed 0 "abc" |} in
  let st := {| offsets := ∅; offsets_file := Missing;
               mirrors := {[ name smart_house_pi3 := Py.encode "xy" ]};
               status_log := [] |} in
  ∃ st', main_loop true [smart_house_pi3] [λ _, replies] st = Ok st'
    ∧ Py.encode "xy" `prefix_of` mirror st' (name smart_house_pi3).
Proof.
  intros replies st. eexists. split; [vm_compute; reflexivity|].
  match goal with |- _ `prefix_of` mirror ?s _ =>
    exact (proj1 (mirrors_are_append_only true [smart_house_pi3] [λ _, replies]
                    st s (name smart_house_pi3) eq_refl))
  end.
Defined.

(** X19.  The offsets file always holds what [offsets] holds: after any
    run of [main] that ends without an exception, loading the file
    again gives the dictionary the run ended with, so a restart
    resumes from the same offsets. *)
Theorem offsets_file_agrees_with_offsets
    (file : OffsetsFile) (mirrors0 : gmap string (list Byte.byte))
    (log0 : list Status) (once : bool) (sources : list Source)
    (remotes : list (Source → Replies)) (st' : Local) :
  main file mirrors0 log0 once sources remotes = Ok st' →
  load_offsets (offsets_file st') = offsets st'.
Proof.
  unfold main. destruct sources as [|src rest]; [discriminate|].
  intros H.
  refine (main_loop_preserves
            (λ a b, load_offsets (offsets_file a) = offsets a →
                    load_offsets (offsets_file b) = offsets b)
            _ _ _ _ _ _ _ _ H _).
  - done.
  - intros a b c Hab Hbc Ha. by apply Hbc, Hab.
  - intros s replies st0 st1 Hc Hinv.
    apply collect_source_inv in Hc as [[rec ->] | (S & data & _ & ->)]; done.
  - done.
Qed.

Lemma offsets_file_agrees_with_offsets_witness :
  let replies := {| on_stat := completed 0 ("3" ++ Py.nl);
                    on_tail := λ _, completed 0 "abc" |} in
  ∃ st', main Garbled ∅ [] true [smart_house_pi3] [λ _, replies] = Ok st'
    ∧ load_offsets (offsets_file st') = offsets st'.
Proof.
  intros replies. eexists. split; [vm_compute; reflexivity|].
  match goal with |- load_offsets (offsets_file ?s) = _ =>
    exact (offsets_file_agrees_with_offsets Garbled ∅ [] true [smart_house_pi3]
             [λ _, replies] s eq_refl)
  end.
Defined.

(** X20.  A loop body changes the stored offset of its own source
    only, and only to the size that the size query of that cycle
    reported, which is never negative; the offsets and mirror files of
    all other sources stay as they are. *)
Theorem offset_changes_only_to_reported_size
    (src : Source) (replies : Replies) (st st' : Local) (key : string) :
  collect_source src replies st = Ok st' →
  (key ≠ name src →
   offsets st' !! key = offsets st !! key ∧ mirrors st' !! key = mirrors st !! key)
  ∧ (stored_offset st' (name src) = stored_offset st (name src)
     ∨ (remote_stat_size (on_stat replies)
          = Ok (Some (stored_offset st' (name src)))
        ∧ (0 ≤ stored_offset st' (name src))%Z)).
Proof.
  intros H.
  apply collect_source_inv in H as [[rec ->] | (S & data & Hs & ->)].
  - split; [done | by left].
  - split.
    + intros Hne. simpl. by rewrite !lookup_insert_ne.
    + right. rewrite stored_offset_after_insert. split; [done|].
      destruct (on_stat replies) as [p|e]; [|discriminate].
      by apply (stat_size_nonneg p S).
Qed.

Lemma offset_changes_only_to_reported_size_witness :
  let key := name smart_house_pi3 in
  let replies := {| on_stat := completed 0 ("3" ++ Py.nl);
                    on_tail := λ _, completed 0 "abc" |} in
  let st := {| offsets := {[ "attic_pi" := 7%Z ]}; offsets_file := Missing;
               mirrors := ∅; status_log := [] |} in
  ∃ st', collect_source smart_house_pi3 replies st = Ok st'
    ∧ offsets st' !! "attic_pi" = Some 7%Z
    ∧ (stored_offset st' key = stored_offset st key
       ∨ remote_stat_size (on_stat replies) = Ok (Some (stored_offset st' key))
         ∧ (0 ≤ stored_offset st' key)%Z).
Proof.
  intros key replies st. eexists. split; [vm_compute; reflexivity|].
  match goal with |- offsets ?s !! _ = _ ∧ _ =>
    destruct (offset_changes_only_to_reported_size smart_house_pi3 replies st s
                "attic_pi" eq_refl) as [Hother Hown]
  end.
  split; [|exact Hown].
  destruct Hother as [Ho _]; [discriminate|]. rewrite Ho. reflexivity.
Defined.

(** X21.  [append_file] copies the whole source behind the
    destination, whatever the size of the reads, and returns the
    number of bytes copied; the loop ends within one iteration more
    than the source has bytes. *)
Theorem append_file_copies_everything
    (fuel n : nat) (src dst : list Byte.byte) (k : nat) :
  (0 < n)%nat → (length src < fuel)%nat →
  append_loop fuel n src dst k = ((dst ++ src)%list, (k + length src)%nat)
  ∧ append_file dst src = ((dst ++ src)%list, length src).
Proof.
  intros Hn Hfuel. split; [by apply append_loop_all | apply append_file_all].
Qed.

Lemma append_file_copies_everything_witness :
  append_loop 6 2 (Py.encode "abcde") (Py.encode "xy") 0
    = (Py.encode "xyabcde", 5%nat)
  ∧ append_file (Py.encode "xy") (Py.encode "abcde") = (Py.encode "xyabcde", 5%nat).
Proof.
  apply (append_file_copies_everything 6 2 (Py.encode "abcde") (Py.encode "xy") 0);
    simpl; lia.
Defined.

Lemma cycle_no_change (remote : Source → Replies) (st0 : Local)
    (sources : list Source) (st : Local) :
  offsets st = offsets st0 →
  (∀ src, src ∈ sources →
     remote_stat_size (on_stat (remote src))
       = Ok (Some (stored_offset st0 (name src)))) →
  cycle remote sources st =
    Ok {| offsets := offsets st; offsets_file := offsets_file st;
          mirrors := mirrors st;
          status_log := (status_log st ++
            ((λ src, no_change (name src) (host src)
                       (stored_offset st0 (name src))) <$> sources))%list |}.
Proof.
  revert st. induction sources as [|src rest IH]; intros st Ho Hall.
  - simpl. rewrite app_nil_r. by destruct st.
  - simpl.
    rewrite (collect_source_no_change src (remote src) st
               (stored_offset st0 (name src))).
    + simpl. rewrite IH; [|done|].
      * simpl. by rewrite <- app_assoc.
      * intros s Hs. apply Hall. by right.
    + apply Hall. by left.
    + unfold stored_offset. rewrite Ho. by rewrite Z.ltb_irrefl.
Qed.

(** X22.  While every size query reports the stored offset, cycles
    change nothing: however many there are, offsets, offsets file and
    mirror files stay as they are, no range read is issued, and each
    cycle writes one [no_change] record per source. *)
Theorem unchanged_remote_changes_nothing
    (sources : list Source) (remotes : list (Source → Replies)) (st : Local) :
  (∀ remote src, remote ∈ remotes → src ∈ sources →
     remote_stat_size (on_stat (remote src))
       = Ok (Some (stored_offset st (name src)))) →
  main_loop false sources remotes st =
    Ok {| offsets := offsets st; offsets_file := offsets_file st;
          mirrors := mirrors st;
          status_log := (status_log st ++
            mjoin (replicate (length remotes)
                     ((λ src, no_change (name src) (host src)
                                (stored_offset st (name src))) <$> sources)))%list |}.
Proof.
  intros Hall.
  assert (Hgen : ∀ st1, offsets st1 = offsets st →
            main_loop false sources remotes st1 =
              Ok {| offsets := offsets st1; offsets_file := offsets_file st1;
                    mirrors := mirrors st1;
                    status_log := (status_log st1 ++
                      mjoin (replicate (length remotes)
                               ((λ src, no_change (name src) (host src)
                                          (stored_offset st (name src)))
                                  <$> sources)))%list |}).
  { induction remotes as [|remote rest IH]; intros st1 Ho.
    - simpl. rewrite app_nil_r. by destruct st1.
    - simpl main_loop.
      rewrite (cycle_no_change remote st sources st1 Ho).
      + simpl bind. rewrite IH; [|intros r s Hr Hs; apply Hall; [by right|done]|done].
        simpl. by rewrite <- app_assoc.
      + intros s Hs. apply Hall; [by left|done]. }
  by apply Hgen.
Qed.

Lemma unchanged_remote_changes_nothing_witness :
  let key := name smart_house_pi3 in
  let replies := {| on_stat := completed 0 ("3" ++ Py.nl);
                    on_tail := λ _, Raise TimeoutExpired |} in
  let st := {| offsets := {[ key := 3%Z ]}; offsets_file := Stored {[ key := 3%Z ]};
               mirrors := {[ key := Py.encode "abc" ]}; status_log := [] |} in
  main_loop false [smart_house_pi3] [λ _, replies; λ _, replies] st =
    Ok {| offsets := offsets st; offsets_file := offsets_file st;
          mirrors := mirrors st;
          status_log := [no_change key "192.168.1.50" 3;
                         no_change key "192.168.1.50" 3] |}.
Proof.
  intros key replies st.
  apply (unchanged_remote_changes_nothing [smart_house_pi3]
           [λ _, replies; λ _, replies] st).
  intros remote src Hr Hs.
  apply list_elem_of_singleton in Hs as ->.
  repeat (apply elem_of_cons in Hr as [-> | Hr]; [reflexivity|]).
  by apply elem_of_nil in Hr.
Defined.

(** X23.  As long as no call of [run] raises and every size that is
    printed is a decimal number, the loop goes on, and every cycle
    writes exactly one status record for every source. *)
Theorem one_status_record_per_source_and_cycle
    (sources : list Source) (remotes : list (Source → Replies)) (st : Local) :
  (∀ remote src, remote ∈ remotes → src ∈ sources →
     (∃ size, remote_stat_size (on_stat (remote src)) = Ok size)
     ∧ ∀ start, ∃ p, on_tail (remote src) start = Ok p) →
  ∃ st', main_loop false sources remotes st = Ok st'
    ∧ length (status_log st')
      = (length (status_log st) + length remotes * length sources)%nat.
Proof.
  revert st. induction remotes as [|remote rest IH]; intros st Hall.
  - exists st. split; [done | simpl; lia].
  - destruct (cycle_returns remote sources st) as (st1 & Hc & Hlen).
    { intros src Hs. apply Hall; [by left | done]. }
    destruct (IH st1) as (st' & Hrest & Hlen').
    { intros r s Hr Hs. apply Hall; [by right | done]. }
    exists st'. simpl main_loop. rewrite Hc. simpl bind. split; [exact Hrest|].
    rewrite Hlen', Hlen. simpl. lia.
Qed.

Lemma one_status_record_per_source_and_cycle_witness :
  let down := {| on_stat := completed 255 ""; on_tail := λ _, completed 255 "" |} in
  let up := {| on_stat := completed 0 ("3" ++ Py.nl);
               on_tail := λ _, completed 0 "abc" |} in
  ∃ st', main_loop false [smart_house_pi3] [λ _, down; λ _, up; λ _, up] fresh
           = Ok st'
    ∧ length (status_log st') = 3%nat.
Proof.
  intros down up.
  apply (one_status_record_per_source_and_cycle [smart_house_pi3]
           [λ _, down; λ _, up; λ _, up] fresh).
  intros remote src Hr Hs.
  repeat (apply elem_of_cons in Hr as [-> | Hr];
          [split; [eexists; reflexivity | intros; eexists; reflexivity]|]).
  by apply elem_of_nil in Hr.
Defined.


(** X25.  When the size query fails, or reports what is stored, the
    range read is not issued: whatever it would have done, a timeout
    included, the body only writes its status record. *)
Theorem no_fetch_without_new_data
    (src : Source) (stat : Result CompletedProcess)
    (tail : Z → Result CompletedProcess) (st : Local) :
  (remote_stat_size stat = Ok None →
   collect_source src {| on_stat := stat; on_tail := tail |} st =
     Ok (log_status st
           (unreachable_or_missing (name src) (host src)
              ("Could not stat " ++ remote_path src))))
  ∧ (remote_stat_size stat = Ok (Some (stored_offset st (name src))) →
     collect_source src {| on_stat := stat; on_tail := tail |} st =
       Ok (log_status st
             (no_change (name src) (host src) (stored_offset st (name src))))).
Proof.
  split; intros Hs.
  - by apply collect_source_unreachable.
  - apply collect_source_no_change; [done|]. by rewrite Z.ltb_irrefl.
Qed.

Lemma no_fetch_without_new_data_witness :
  let hangs : Z → Result CompletedProcess := λ _, Raise TimeoutExpired in
  collect_source smart_house_pi3
    {| on_stat := completed 1 ""; on_tail := hangs |} fresh
  = Ok (log_status fresh
          (unreachable_or_missing "smart_house_pi3" "192.168.1.50"
             "Could not stat /var/log/iot_auth_events.jsonl"))
  ∧ collect_source smart_house_pi3
      {| on_stat := completed 0 ("0" ++ Py.nl); on_tail := hangs |} fresh
    = Ok (log_status fresh (no_change "smart_house_pi3" "192.168.1.50" 0)).
Proof.
  intros hangs. split.
  - apply (proj1 (no_fetch_without_new_data smart_house_pi3 (completed 1 "")
                    hangs fresh)). reflexivity.
  - apply (proj2 (no_fetch_without_new_data smart_house_pi3
                    (completed 0 ("0" ++ Py.nl)) hangs fresh)). reflexivity.
Defined.

End CollectorStreamFacts.

Section RecentFailures.

Import Alerts.

Lemma run_app_state (args : Args) (now : Z) (st : State) (first later : list Event) :
  (run args now st (first ++ later)).1
    = (run args now (run args now st first).1 later).1.
Proof.
  revert st. induction first as [|evt rest IH]; intros st; [done|].
  rewrite <- app_comm_cons, !run_cons.
  destruct (step args now st evt) as [st1 a1]. specialize (IH st1).
  destruct (run args now st1 (rest ++ later)) as [st2 a2].
  destruct (run args now st1 rest) as [st3 a3]. simpl in *.
  rewrite IH. by destruct (run args now st3 later).
Qed.

(** X26.  After every record, whatever its kind, no entry of
    [recent_fail_ips] is older than the window before that record's
    time: the expiry runs at the end of each iteration, so the
    dictionary holds only IPs that failed within the window of the
    record read last. *)
Theorem recent_fail_ips_within_window
    (args : Args) (now : Z) (st : State) (evts : list Event) (evt : Event)
    (ip : string) (rts : Z) :
  recent_fail_ips (run args now st (evts ++ [evt])).1 !! ip = Some rts →
  event_time now evt - window args ≤ rts.
Proof.
  rewrite run_app_state. simpl run.
  destruct (step args now (run args now st evts).1 evt) as [st1 a1] eqn:Hstep.
  simpl. intros H.
  apply (recent_fail_ips_fresh args now (run args now st evts).1 evt ip rts).
  by rewrite Hstep.
Qed.

Lemma recent_fail_ips_within_window_witness :
  let args := {| fail_threshold := 8; window_min := 5; alert_sudo := false |} in
  (event_time 0 (failed "10.0.0.9" 400000000) - window args ≤ 400000000)%Z.
Proof.
  intros args.
  exact (recent_fail_ips_within_window args 0 initial [failed "10.0.0.5" 7]
           (failed "10.0.0.9" 400000000) "10.0.0.9" 400000000 eq_refl).
Defined.

End RecentFailures.

Section Commands.

Import Collector.

Local Open Scope string_scope.


End Commands.
